(** * Loan-state computation for the NOSTRA_ALPHA protocol

    A shallow embedding of
    [data_handler/handlers/loan_states/nostra_alpha/run.py]
    (class [NostraAlphaStateComputation]) and the properties of its
    ingestion loop: pagination by block range, the retry budget on empty
    pages, the dispatch of events by their [key_name] and the snapshot
    produced for each page. *)

From Stdlib Require Import ZArith Lia.
From stdpp Require Import base strings gmap list.

(** ** Raw event records

    The API returns a list of JSON objects; Python sees a [list[dict]].
    A dict is a finite map from field names to values. *)

Inductive value :=
| VInt (z : Z)
| VStr (s : string).

Abbreviation record := (gmap string value).

(** ** Rows of a data frame

    [pd.DataFrame(data)] turns the records into rows over one set of
    columns.  A cell holds an integer, a float (here always the float
    nearest to an integer), a string or NaN. *)

Inductive cell :=
| CInt (z : Z)
| CFloat (z : Z)
| CStr (s : string)
| CNaN.

Abbreviation row := (gmap string cell).

(** Exceptions that end [run]: the two [process_data] can raise, and
    those of the API connector and of the sink. *)
Inductive exception :=
| KeyError (key : string)
| MalformedEventError (method_name : string)
| ApiError
| SinkWriteError.

(** ** The collaborators that live outside [run.py]

    [NostraAlphaState] (events.py) and the helpers inherited from
    [LoanStateComputationBase] (abstractions.py) are used by [run.py] but
    defined elsewhere; they are an interface here.  [process_event] is
    given a row of the frame; it updates the state object it is given,
    and nothing else, or raises; [get_result_df] only reads the
    entities. *)
Class LoanStateBase := {
  State : Type;
  Entities : Type;
  DataFrame : Type;
  (** [NostraAlphaState()]: the state of a newly constructed object. *)
  NostraAlphaState : State;
  (** the class attribute [EVENTS_METHODS_MAPPING], a dict from event
      names to method names. *)
  EVENTS_METHODS_MAPPING : gmap string string;
  loan_entities : State → Entities;
  process_event : State → string → row → exception + State;
  get_result_df : Entities → DataFrame;
}.

(** The environment of a run: the API connector and the sink, either of
    which may raise, the constant [PAGINATION_SIZE], the configured
    [PROTOCOL_ADDRESSES], and the value [self.last_block] has when [run]
    is entered.  [save_data] is told the cursor at the time of the call
    besides the frame; [None] means the frame was written. *)
Class Environment (Frame : Type) := {
  api_get_data : string → Z → Z → exception + list record;
  save_data : Z → Frame → option exception;
  PAGINATION_SIZE : Z;
  PROTOCOL_ADDRESSES : list string;
  initial_last_block : Z;
}.

(** ** [pd.DataFrame(data)] *)

(** The float64 nearest to an integer, ties to even: exact up to 53
    bits, the low bits rounded away beyond. *)
Definition to_float64 (z : Z) : Z :=
  let a := Z.abs z in
  let bits := (Z.log2 a + 1)%Z in
  if (bits <=? 53)%Z then z
  else
    let shift := (bits - 53)%Z in
    let q := Z.shiftr a shift in
    let rem := Z.land a (Z.ones shift) in
    let half := Z.shiftl 1 (shift - 1) in
    let q' := if (half <? rem)%Z || ((rem =? half)%Z && Z.odd q)
              then (q + 1)%Z else q in
    (Z.sgn z * Z.shiftl q' shift)%Z.

Definition INT64_MIN : Z := (- 2 ^ 63)%Z.
Definition INT64_MAX : Z := (2 ^ 63 - 1)%Z.
Definition UINT64_MAX : Z := (2 ^ 64 - 1)%Z.

(** The values of one field over the records, [None] where a record has
    no such field. *)
Definition field_values (col : string) (data : list record)
  : list (option value) :=
  map (λ r : record, r !! col) data.

(** A column becomes float64 when some record lacks the field and the
    values present are integers that fit one 64-bit integer type; then
    the gaps hold NaN and the integers are converted.  Any other column
    keeps its values (NaN in the gaps). *)
Definition is_float_column (col : string) (data : list record) : bool :=
  let vs := field_values col data in
  existsb (λ v, match v with None => true | _ => false end) vs
  && forallb (λ v, match v with
                   | Some (VStr _) => false
                   | Some (VInt z) => (INT64_MIN <=? z)%Z && (z <=? UINT64_MAX)%Z
                   | None => true
                   end) vs
  && negb (existsb (λ v, match v with Some (VInt z) => (z <? 0)%Z | _ => false end) vs
           && existsb (λ v, match v with
                            | Some (VInt z) => (INT64_MAX <? z)%Z
                            | _ => false
                            end) vs).

Definition cell_of (col : string) (data : list record) (v : option value)
  : cell :=
  match v with
  | None => CNaN
  | Some (VStr s) => CStr s
  | Some (VInt z) =>
      if is_float_column col data then CFloat (to_float64 z) else CInt z
  end.

(** The row of the frame built from [data] for the record [r]: one cell
    per field that occurs in some record of [data]. *)
Definition frame_row (data : list record) (r : record) : row :=
  map_imap (λ col _, Some (cell_of col data (r !! col))) (⋃ data).

(** [pd.DataFrame(data)]: one row per record, in order. *)
Definition pd_DataFrame (data : list record) : list row :=
  map (frame_row data) data.

(** ** [process_data] *)

Section ProcessData.
Context `{LoanStateBase}.

(** [pd.DataFrame(data)] has one column per field that occurs in some
    record of [data]; a record without the field holds NaN there.
    [df[col]] raises [KeyError] when no record has the field (in
    particular when [data] is empty). *)
Definition has_column (col : string) (data : list record) : bool :=
  existsb (λ r : record, bool_decide (is_Some (r !! col))) data.

Definition column (col : string) (data : list record)
  : exception + list (option value) :=
  if has_column col data then inr (map (λ r : record, r !! col) data)
  else inl (KeyError col).

(** [Series.isin(events_mapping.keys())] on one cell: NaN and values
    that are not a key of the mapping give [False]. *)
Definition isin_keys (cell : option value) : bool :=
  match cell with
  | Some (VStr s) => bool_decide (is_Some (EVENTS_METHODS_MAPPING !! s))
  | _ => false
  end.

(** [df[mask]]: the rows whose mask entry is [True], in index order. *)
Fixpoint select_rows {A : Type} (mask : list bool) (rows : list A) : list A :=
  match mask, rows with
  | b :: mask', r :: rows' =>
      if b then r :: select_rows mask' rows' else select_rows mask' rows'
  | _, _ => []
  end.

(** [events_mapping.get(row["key_name"], "") or ""]. *)
Definition method_name_of (r : row) : string :=
  match r !! "key_name" with
  | Some (CStr s) => default "" (EVENTS_METHODS_MAPPING !! s)
  | _ => ""
  end.

(** The [for index, row in df_filtered.iterrows()] loop.  The first
    component lists the calls of [process_event] that were made, in
    order; the second is the state reached, or the exception that left
    the loop. *)
Fixpoint iterrows (st : State) (rows : list row)
  : list (string * row) * (exception + State) :=
  match rows with
  | [] => ([], inr st)
  | r :: rest =>
      let method_name := method_name_of r in
      match process_event st method_name r with
      | inl e => ([(method_name, r)], inl e)
      | inr st' =>
          let '(calls, res) := iterrows st' rest in
          ((method_name, r) :: calls, res)
      end
  end.

(** [self.get_result_df(nostra_alpha_state.loan_entities)], when the
    loop over the rows was left normally. *)
Definition result_df (r : exception + State) : exception + DataFrame :=
  match r with
  | inl e => inl e
  | inr st => inr (get_result_df (loan_entities st))
  end.

Definition process_data (data : list record)
  : list (string * row) * (exception + DataFrame) :=
  let nostra_alpha_state := NostraAlphaState in
  let df := pd_DataFrame data in
  match column "key_name" data with
  | inl e => ([], inl e)
  | inr key_names =>
      let df_filtered := select_rows (map isin_keys key_names) df in
      let '(calls, r) := iterrows nostra_alpha_state df_filtered in
      (calls, result_df r)
  end.

(** A record is registered when its [key_name] is a key of the
    mapping. *)
Definition registered (r : record) : bool := isin_keys (r !! "key_name").

(** The rows of the frame built from [frame] for the registered records
    of [data], in the order of [data]. *)
Definition registered_rows (frame data : list record) : list row :=
  map (frame_row frame) (List.filter registered data).

(** The calls a list of records asks for: one per registered record, in
    the order of the list. *)
Definition expected_calls (frame data : list record) : list (string * row) :=
  map (λ r, (method_name_of r, r)) (registered_rows frame data).

(** Dispatching, from the state [st], the rows of the registered
    records of [data]. *)
Definition replay (frame : list record) (st : State) (data : list record)
  : list (string * row) * (exception + State) :=
  iterrows st (registered_rows frame data).

(** Applying a sequence of calls to the ledger one after the other, as
    the specification words it: the state after the last call, or the
    exception of the first call that raises. *)
Fixpoint apply_in_order (st : State) (calls : list (string * row))
  : exception + State :=
  match calls with
  | [] => inr st
  | (method_name, r) :: rest =>
      match process_event st method_name r with
      | inl e => inl e
      | inr st' => apply_in_order st' rest
      end
  end.

End ProcessData.

(** ** [get_data] and [run] *)

(** What the loop does to the outside world, in order: a query sent to
    the API, a call of [process_event], a frame given to [save_data]. *)
Inductive action (Frame : Type) :=
| Fetch (from_address : string) (min_block_number max_block_number : Z)
| Dispatch (method_name : string) (r : row)
| Save (df : Frame).

Arguments Fetch {Frame} from_address min_block_number max_block_number.
Arguments Dispatch {Frame} method_name r.
Arguments Save {Frame} df.

(** The two variables [run] updates: [self.last_block] and the local
    [retry]. *)
Record loop_state := {
  last_block : Z;
  retry : nat;
}.

(** How one pass through the body of [while True] ends. *)
Inductive outcome :=
| Continue (st : loop_state)
| Break (st : loop_state)
| Raise (e : exception).

Section Run.
Context `{LoanStateBase} `{Environment DataFrame}.

(** [self.get_data(form_address, min_block)]: the lower bound of the
    query is [self.last_block], the upper bound is computed from the
    argument.  The connector returns the records or raises. *)
Definition get_data (st : loop_state) (form_address : string) (min_block : Z)
  : action DataFrame * (exception + list record) :=
  (Fetch form_address (last_block st) (min_block + PAGINATION_SIZE),
   api_get_data form_address (last_block st) (min_block + PAGINATION_SIZE)).

(** The query [run] sends in state [st], and the answer it receives. *)
Definition query (protocol_address : string) (st : loop_state)
  : action DataFrame :=
  (get_data st protocol_address (last_block st)).1.

Definition fetched_page (protocol_address : string) (st : loop_state)
  : exception + list record :=
  (get_data st protocol_address (last_block st)).2.

(** [not data] for a list. *)
Definition is_empty (data : list record) : bool :=
  match data with [] => true | _ => false end.

(** The calls of [process_event] as actions. *)
Definition dispatches (calls : list (string * row)) : list (action DataFrame) :=
  map (λ c, Dispatch c.1 c.2) calls.

(** One pass through the body of the [while True] loop of [run].  No
    call is guarded by a [try]: an exception of [get_data], of
    [process_data] or of [save_data] ends the run. *)
Definition iteration (max_retries : nat) (protocol_address : string)
    (st : loop_state) : list (action DataFrame) * outcome :=
  let '(fetch, response) := get_data st protocol_address (last_block st) in
  match response with
  | inl e => ([fetch], Raise e)
  | inr data =>
      if is_empty data && (retry st <? max_retries)%nat then
        ([fetch],
         Continue {| last_block := last_block st + PAGINATION_SIZE;
                     retry := S (retry st) |})
      else if (retry st =? max_retries)%nat then
        ([fetch], Break st)
      else
        match process_data data with
        | (calls, inl e) => (fetch :: dispatches calls, Raise e)
        | (calls, inr processed_data) =>
            (fetch :: dispatches calls ++ [Save processed_data],
             match save_data (last_block st) processed_data with
             | Some e => Raise e
             | None =>
                 Continue {| last_block := last_block st + PAGINATION_SIZE;
                             retry := retry st |}
             end)
        end
  end.

(** The [while True] loop for one address.  [fuel] bounds the number of
    passes; [None] means the bound was reached with the loop still
    running. *)
Fixpoint while_true (max_retries : nat) (fuel : nat)
    (protocol_address : string) (st : loop_state)
  : option (list (action DataFrame) * (exception + loop_state)) :=
  match fuel with
  | O => None
  | S fuel' =>
      match iteration max_retries protocol_address st with
      | (acts, Continue st') =>
          match while_true max_retries fuel' protocol_address st' with
          | Some (acts', r) => Some (acts ++ acts', r)
          | None => None
          end
      | (acts, Break st') => Some (acts, inr st')
      | (acts, Raise e) => Some (acts, inl e)
      end
  end.

(** The [for protocol_address in ...] loop: the state left by one
    address is the state the next one starts from. *)
Fixpoint for_addresses (max_retries : nat) (fuel : nat)
    (addresses : list string) (st : loop_state)
  : option (list (action DataFrame) * (exception + loop_state)) :=
  match addresses with
  | [] => Some ([], inr st)
  | protocol_address :: rest =>
      match while_true max_retries fuel protocol_address st with
      | Some (acts, inr st') =>
          match for_addresses max_retries fuel rest st' with
          | Some (acts', r) => Some (acts ++ acts', r)
          | None => None
          end
      | Some (acts, inl e) => Some (acts, inl e)
      | None => None
      end
  end.

(** [run] with its local constant [max_retries] as a parameter. *)
Definition run_with (max_retries : nat) (fuel : nat)
  : option (list (action DataFrame) * (exception + loop_state)) :=
  for_addresses max_retries fuel PROTOCOL_ADDRESSES
    {| last_block := initial_last_block; retry := 0 |}.

(** [run]: [retry = 0], [max_retries = 5], then the two loops. *)
Definition run (fuel : nat) := run_with 5 fuel.

(** [n] consecutive queries for address [a], the first one from block
    [start]. *)
Definition windows (a : string) (start : Z) (n : nat) : list (action DataFrame) :=
  map (λ i : nat,
         Fetch a (start + Z.of_nat i * PAGINATION_SIZE)
                 (start + Z.of_nat i * PAGINATION_SIZE + PAGINATION_SIZE))
      (seq 0 n).

(** The queries sent for one address, among a list of actions. *)
Definition is_fetch_for (a : string) (act : action DataFrame) : bool :=
  match act with
  | Fetch a' _ _ => bool_decide (a' = a)
  | _ => false
  end.

Definition fetches_for (a : string) (acts : list (action DataFrame))
  : list (action DataFrame) :=
  List.filter (is_fetch_for a) acts.

Definition is_fetch (act : action DataFrame) : bool :=
  match act with Fetch _ _ _ => true | _ => false end.

(** The frames given to [save_data], in order. *)
Definition saved (acts : list (action DataFrame)) : list DataFrame :=
  flat_map (λ act, match act with Save df => [df] | _ => [] end) acts.

(** The queries among a list of actions, in order. *)
Definition queries (acts : list (action DataFrame)) : list (action DataFrame) :=
  List.filter is_fetch acts.

(** The last frame given to [save_data] in a run, if any. *)
Definition last_saved
    (result : option (list (action DataFrame) * (exception + loop_state)))
  : option DataFrame :=
  match result with
  | Some (acts, _) => last (saved acts)
  | None => None
  end.

(** [df] is the frame of the page [data] taken alone: the projection of
    the state reached by applying, in order, the calls for the
    registered rows of [data] to a newly constructed state. *)
Definition frame_of_page (data : list record) (df : DataFrame) : Prop :=
  data ≠ []
  ∧ ∃ ledger,
      apply_in_order NostraAlphaState (expected_calls data data) = inr ledger
      ∧ df = get_result_df (loan_entities ledger).

(** Every frame saved in [acts] comes right after the query of a page
    and the calls for that page, and is the frame of that page alone. *)
Definition saves_follow_pages (acts : list (action DataFrame)) : Prop :=
  ∀ pre df post,
    acts = pre ++ Save df :: post →
    ∃ pre' a lo data,
      pre = pre' ++ Fetch a lo (lo + PAGINATION_SIZE)
                     :: dispatches (expected_calls data data)
      ∧ api_get_data a lo (lo + PAGINATION_SIZE) = inr data
      ∧ frame_of_page data df.

End Run.

(** ** A ledger to run the loop on

    An instance of the interface above, and sources to run the loop
    against. *)
Module SpecLedger.

(** Modelled from the spec: the loan position record kept by
    [NostraAlphaState] (events.py, not part of [run.py]): one per
    account identifier, with the collateral and debt amounts per asset
    and the last updated block. *)
Record LoanPosition := {
  account : string;
  collateral : gmap string Z;
  debt : gmap string Z;
  last_updated : Z;
}.

Definition new_position (user : string) : LoanPosition :=
  {| account := user; collateral := ∅; debt := ∅; last_updated := 0 |}.

Definition amount_of (amounts : gmap string Z) (asset : string) : Z :=
  default 0%Z (amounts !! asset).

(** The fields of a row; a NaN cell counts as a missing field, a float
    cell as the number it holds. *)
Definition str_field (r : row) (f : string) : option string :=
  match r !! f with Some (CStr s) => Some s | _ => None end.

Definition int_field (r : row) (f : string) : option Z :=
  match r !! f with
  | Some (CInt z) => Some z
  | Some (CFloat z) => Some z
  | _ => None
  end.

(** The payload of a collateral event: account, asset, amount, block. *)
Definition payload (r : row) : option (string * string * Z * Z) :=
  match str_field r "user", str_field r "token",
        int_field r "amount", int_field r "block_number" with
  | Some u, Some t, Some a, Some b => Some (u, t, a, b)
  | _, _, _, _ => None
  end.

(** Modelled from the spec: a mutation of the ledger (events.py).  An
    unknown account is created on first reference with zero amounts, and
    only the addressed record is touched. *)
Definition set_collateral (l : gmap string LoanPosition)
    (user token : string) (f : Z → Z) (block : Z) : gmap string LoanPosition :=
  let p := default (new_position user) (l !! user) in
  <[user := {| account := user;
               collateral := <[token := f (amount_of (collateral p) token)]>
                               (collateral p);
               debt := debt p;
               last_updated := block |}]> l.

(** Modelled from the spec: the two mutation kinds the specification
    names.  A payload without a required field raises
    [MalformedEventError]; an amount that would go below zero is
    clamped. *)
Definition deposit (l : gmap string LoanPosition) (r : row)
  : exception + gmap string LoanPosition :=
  match payload r with
  | Some (u, t, a, b) => inr (set_collateral l u t (λ c, c + a)%Z b)
  | None => inl (MalformedEventError "deposit")
  end.

Definition withdraw (l : gmap string LoanPosition) (r : row)
  : exception + gmap string LoanPosition :=
  match payload r with
  | Some (u, t, a, b) => inr (set_collateral l u t (λ c, Z.max 0 (c - a))%Z b)
  | None => inl (MalformedEventError "withdraw")
  end.

(** Modelled from the spec: [process_event] of the base class
    (abstractions.py) calls the method of the given name on the state; a
    name with no method does nothing. *)
Definition apply_method (l : gmap string LoanPosition)
    (method_name : string) (r : row)
  : exception + gmap string LoanPosition :=
  if decide (method_name = "deposit") then deposit l r
  else if decide (method_name = "withdraw") then withdraw l r
  else inr l.

(** Modelled from the spec: [get_result_df] of the base class gives one
    row per loan position record. *)
Definition rows (l : gmap string LoanPosition) : list LoanPosition :=
  (map_to_list l).*2.

(** Modelled from the spec: [NostraAlphaState] with a mapping for the
    two event names; a newly constructed state has an empty ledger. *)
Definition ledger : LoanStateBase := {|
  State := gmap string LoanPosition;
  Entities := gmap string LoanPosition;
  DataFrame := list LoanPosition;
  NostraAlphaState := ∅;
  EVENTS_METHODS_MAPPING :=
    <["Deposit" := "deposit"]> (<["Withdraw" := "withdraw"]> ∅);
  loan_entities := λ l, l;
  process_event := apply_method;
  get_result_df := rows;
|}.

(** Event records as the API would deliver them. *)
Definition event (key_name user token : string) (amount block : Z) : record :=
  <["key_name" := VStr key_name]>
    (<["user" := VStr user]>
       (<["token" := VStr token]>
          (<["amount" := VInt amount]>
             (<["block_number" := VInt block]> ∅)))).

(** A record with a payload but no [key_name] field. *)
Definition untagged (user token : string) (amount block : Z) : record :=
  delete "key_name" (event "" user token amount block).

(** The block of an event record. *)
Definition block_of (r : record) : Z :=
  match r !! "block_number" with Some (VInt b) => b | _ => 0%Z end.

(** A source with nothing to return, whatever is asked, and a sink that
    takes every frame. *)
Definition silent (addresses : list string) (window start : Z)
  : Environment (list LoanPosition) := {|
  api_get_data := λ _ _ _, inr [];
  save_data := λ _ _, None;
  PAGINATION_SIZE := window;
  PROTOCOL_ADDRESSES := addresses;
  initial_last_block := start;
|}.

(** A source whose only page is the one queried from block [at_block]. *)
Definition single_page (addresses : list string) (window start : Z)
    (at_block : Z) (page : list record) : Environment (list LoanPosition) := {|
  api_get_data := λ _ lo _, inr (if decide (lo = at_block) then page else []);
  save_data := λ _ _, None;
  PAGINATION_SIZE := window;
  PROTOCOL_ADDRESSES := addresses;
  initial_last_block := start;
|}.

(** A source that answers every query with the same page. *)
Definition steady (addresses : list string) (window start : Z)
    (page : list record) : Environment (list LoanPosition) := {|
  api_get_data := λ _ _ _, inr page;
  save_data := λ _ _, None;
  PAGINATION_SIZE := window;
  PROTOCOL_ADDRESSES := addresses;
  initial_last_block := start;
|}.

(** A source over a fixed stream of events: a query is answered with
    the events whose block lies in the range asked for, in the order of
    the stream. *)
Definition stream (events : list record) (addresses : list string)
    (window start : Z) : Environment (list LoanPosition) := {|
  api_get_data := λ _ lo hi,
    inr (List.filter (λ r, (lo <=? block_of r)%Z && (block_of r <? hi)%Z) events);
  save_data := λ _ _, None;
  PAGINATION_SIZE := window;
  PROTOCOL_ADDRESSES := addresses;
  initial_last_block := start;
|}.

(** The source [single_page] with a sink that refuses every frame. *)
Definition refusing_sink (addresses : list string) (window start : Z)
    (at_block : Z) (page : list record) : Environment (list LoanPosition) := {|
  api_get_data := λ _ lo _, inr (if decide (lo = at_block) then page else []);
  save_data := λ _ _, Some SinkWriteError;
  PAGINATION_SIZE := window;
  PROTOCOL_ADDRESSES := addresses;
  initial_last_block := start;
|}.

(** Deposits and a withdrawal of one account, and an event of a kind
    the mapping does not know. *)
Definition early_deposit : record := event "Deposit" "alice" "X" 100 1200.
Definition later_deposit : record := event "Deposit" "alice" "X" 50 1700.
Definition deposit_100 : record := event "Deposit" "alice" "X" 100 5200.
Definition deposit_50 : record := event "Deposit" "alice" "X" 50 5300.
Definition withdraw_40 : record := event "Withdraw" "alice" "X" 40 5400.
Definition transfer : record := event "Transfer" "alice" "X" 7 5500.

(** A deposit whose payload lacks the amount. *)
Definition malformed_deposit : record := delete "amount" deposit_100.

(** A deposit of an amount that is not a float64, and an event of an
    unknown kind without an amount. *)
Definition big_deposit : record :=
  event "Deposit" "alice" "X" 9007199254740993 5200.
Definition transfer_no_amount : record := delete "amount" transfer.

(** The collateral a frame shows for an account and an asset. *)
Definition collateral_in (df : list LoanPosition) (user token : string) : Z :=
  match List.find (λ p, bool_decide (account p = user)) df with
  | Some p => amount_of (collateral p) token
  | None => 0
  end.

Definition collateral_shown (r : option (exception + list LoanPosition))
    (user token : string) : option Z :=
  match r with
  | Some (inr df) => Some (collateral_in df user token)
  | _ => None
  end.

End SpecLedger.

(** * Properties *)

(** ** The rows of a frame *)

Section FrameProperties.

Lemma union_list_lookup (data : list record) (r : record) (col : string) :
  r ∈ data → is_Some (r !! col) → is_Some ((⋃ data) !! col).
Proof.
  induction data as [|r' data IH]; intros Hin Hsome.
  - by apply elem_of_nil in Hin.
  - simpl. apply lookup_union_is_Some.
    apply elem_of_cons in Hin as [->|Hin]; [by left|right; by apply IH].
Qed.

Lemma frame_row_lookup (data : list record) (r : record) (col : string) :
  frame_row data r !! col
  = match (⋃ data) !! col with
    | Some _ => Some (cell_of col data (r !! col))
    | None => None
    end.
Proof.
  unfold frame_row. rewrite map_lookup_imap. by destruct ((⋃ data) !! col).
Qed.

(** A string is the same in the row as in the record. *)
Lemma frame_row_str (data : list record) (r : record) (col s : string) :
  r ∈ data → r !! col = Some (VStr s) →
  frame_row data r !! col = Some (CStr s).
Proof.
  intros Hin Hr. rewrite frame_row_lookup.
  destruct (union_list_lookup data r col Hin) as [v ->]; [by rewrite Hr|].
  by rewrite Hr.
Qed.

Lemma frame_row_str_inv (data : list record) (r : record) (col s : string) :
  frame_row data r !! col = Some (CStr s) → r !! col = Some (VStr s).
Proof.
  rewrite frame_row_lookup. destruct ((⋃ data) !! col); [|done].
  unfold cell_of. destruct (r !! col) as [[z|s']|]; [|congruence|done].
  by destruct (is_float_column col data).
Qed.

End FrameProperties.

(** ** Dispatch within one page *)

Section DispatchProperties.
Context `{LoanStateBase}.

Lemma select_rows_filter {A : Type} (f : option value → bool) (col : string)
    (g : record → A) (data : list record) :
  select_rows (map f (map (λ r : record, r !! col) data)) (map g data)
  = map g (List.filter (λ r : record, f (r !! col)) data).
Proof.
  induction data as [|r data IH]; simpl; [done|].
  rewrite IH. by destruct (f (r !! col)).
Qed.

Lemma has_column_false (col : string) (data : list record) :
  has_column col data = false ↔ ∀ r, r ∈ data → r !! col = None.
Proof.
  unfold has_column. induction data as [|r data IH]; simpl.
  - split; [|done]. intros _ r' Hin. by apply elem_of_nil in Hin.
  - rewrite orb_false_iff, IH. split.
    + intros [Hr Hall] r' Hin. apply elem_of_cons in Hin as [->|Hin]; [|by apply Hall].
      apply bool_decide_eq_false in Hr. by apply eq_None_not_Some.
    + intros Hall. split.
      * apply bool_decide_eq_false. apply eq_None_not_Some, Hall. left.
      * intros r' Hin. apply Hall. by right.
Qed.

Lemma has_column_true (col : string) (data : list record) :
  has_column col data = true ↔ ∃ r, r ∈ data ∧ is_Some (r !! col).
Proof.
  unfold has_column. rewrite existsb_exists. split.
  - intros (r & Hin & Hb). exists r. split; [by apply list_elem_of_In|].
    by apply bool_decide_eq_true in Hb.
  - intros (r & Hin & Hs). exists r. split; [by apply list_elem_of_In|].
    by apply bool_decide_eq_true.
Qed.

(** With the column present, [process_data] is the replay of the
    registered rows of its frame on a newly constructed state, followed
    by the projection. *)
Lemma process_data_replay (data : list record) :
  has_column "key_name" data = true →
  process_data data
  = ((replay data NostraAlphaState data).1,
     result_df (replay data NostraAlphaState data).2).
Proof.
  intros Hcol. unfold process_data, column, replay, registered_rows, pd_DataFrame.
  rewrite Hcol, select_rows_filter. fold registered.
  by destruct (iterrows _ _).
Qed.

Lemma process_data_no_column (data : list record) :
  has_column "key_name" data = false →
  process_data data = ([], inl (KeyError "key_name")).
Proof. intros Hcol. unfold process_data, column. by rewrite Hcol. Qed.

(** The calls made by the loop over the rows are an initial part of
    the rows, and all of them when the loop ends normally. *)
Lemma iterrows_calls (rows : list row) : ∀ st,
  (iterrows st rows).1 `prefix_of` map (λ r, (method_name_of r, r)) rows
  ∧ (∀ st', (iterrows st rows).2 = inr st' →
       (iterrows st rows).1 = map (λ r, (method_name_of r, r)) rows).
Proof.
  induction rows as [|r rows IH]; intros st; simpl.
  - split; [done|]. by intros.
  - destruct (process_event st (method_name_of r) r) as [e|st1]; simpl.
    + split; [|done]. by apply prefix_cons, prefix_nil.
    + destruct (IH st1) as [Hpre Hall].
      destruct (iterrows st1 rows) as [calls res]; simpl in *.
      split; [by apply prefix_cons|].
      intros st' ->. f_equal. by eapply Hall.
Qed.

(** The state the loop over the rows reaches is the one obtained by
    applying the calls for these rows one after the other. *)
Lemma iterrows_apply (rows : list row) : ∀ st,
  (iterrows st rows).2
  = apply_in_order st (map (λ r, (method_name_of r, r)) rows).
Proof.
  induction rows as [|r rows IH]; intros st; simpl; [done|].
  destruct (process_event st (method_name_of r) r) as [e|st1]; simpl; [done|].
  rewrite <- IH. by destruct (iterrows st1 rows).
Qed.

Lemma iterrows_app (l1 l2 : list row) : ∀ st,
  iterrows st (l1 ++ l2)
  = match iterrows st l1 with
    | (calls1, inr st1) =>
        ((calls1 ++ (iterrows st1 l2).1), (iterrows st1 l2).2)
    | (calls1, inl e) => (calls1, inl e)
    end.
Proof.
  induction l1 as [|r l1 IH]; intros st; simpl.
  - by destruct (iterrows st l2).
  - destruct (process_event st (method_name_of r) r) as [e|st1]; [done|].
    rewrite IH. destruct (iterrows st1 l1) as [calls1 [e|st2]]; [done|].
    by destruct (iterrows st2 l2).
Qed.

Lemma registered_absent (r : record) (tag : string) :
  r !! "key_name" = Some (VStr tag) →
  EVENTS_METHODS_MAPPING !! tag = None →
  registered r = false.
Proof.
  intros Hk Hm. unfold registered, isin_keys. rewrite Hk.
  apply bool_decide_eq_false. rewrite Hm. by intros [? ?].
Qed.

Lemma registered_has_key (r : record) :
  registered r = true →
  ∃ k m, r !! "key_name" = Some (VStr k)
         ∧ EVENTS_METHODS_MAPPING !! k = Some m.
Proof.
  unfold registered, isin_keys.
  destruct (r !! "key_name") as [[z|k]|]; [done| |done].
  intros [m Hm]%bool_decide_eq_true. by exists k, m.
Qed.

Lemma registered_column (data : list record) (r : record) :
  r ∈ data → registered r = true → has_column "key_name" data = true.
Proof.
  intros Hin (k & m & Hk & _)%registered_has_key.
  apply has_column_true. exists r. split; [done|]. by rewrite Hk.
Qed.

Lemma elem_of_filter_registered (data : list record) (r : record) :
  r ∈ List.filter registered data ↔ r ∈ data ∧ registered r = true.
Proof. rewrite !list_elem_of_In. apply filter_In. Qed.

(** The method called for the row of a registered record is the one
    the mapping gives for the record's [key_name]. *)
Lemma method_name_of_registered (frame : list record) (r : record)
    (k m : string) :
  r ∈ frame → r !! "key_name" = Some (VStr k) →
  EVENTS_METHODS_MAPPING !! k = Some m →
  method_name_of (frame_row frame r) = m.
Proof.
  intros Hin Hk Hm. unfold method_name_of.
  by rewrite (frame_row_str frame r "key_name" k Hin Hk), Hm.
Qed.

Lemma registered_rows_app (frame l1 l2 : list record) :
  registered_rows frame (l1 ++ l2)
  = registered_rows frame l1 ++ registered_rows frame l2.
Proof. unfold registered_rows. by rewrite List.filter_app, map_app. Qed.

Lemma replay_skip (frame : list record) (r : record)
    (pre post : list record) (st : State) :
  registered r = false →
  replay frame st (pre ++ r :: post) = replay frame st (pre ++ post).
Proof.
  intros Hr. unfold replay, registered_rows.
  rewrite !List.filter_app. simpl. by rewrite Hr.
Qed.

Lemma replay_app (frame : list record) (st : State) (p1 p2 : list record) :
  replay frame st (p1 ++ p2)
  = match replay frame st p1 with
    | (calls1, inr st1) =>
        (calls1 ++ (replay frame st1 p2).1, (replay frame st1 p2).2)
    | (calls1, inl e) => (calls1, inl e)
    end.
Proof. unfold replay. rewrite registered_rows_app. apply iterrows_app. Qed.

(** A frame is only returned with the column present, after every
    registered record was dispatched, and it is the projection of the
    state these calls lead to from a newly constructed one. *)
Lemma process_data_ok (data : list record) (df : DataFrame) :
  (process_data data).2 = inr df →
  has_column "key_name" data = true
  ∧ (process_data data).1 = expected_calls data data
  ∧ ∃ ledger, (replay data NostraAlphaState data).2 = inr ledger
              ∧ df = get_result_df (loan_entities ledger).
Proof.
  intros Hok. destruct (has_column "key_name" data) eqn:Hcol.
  - rewrite process_data_replay in Hok |- * by done. simpl in *.
    destruct (replay data NostraAlphaState data).2 as [e|ledger] eqn:Hr; [done|].
    injection Hok as <-. split; [done|]. split; [|by eexists].
    unfold replay in *. by eapply iterrows_calls.
  - by rewrite process_data_no_column in Hok.
Qed.

Lemma process_data_calls_prefix (data : list record) :
  (process_data data).1 `prefix_of` expected_calls data data.
Proof.
  destruct (has_column "key_name" data) eqn:Hcol.
  - rewrite process_data_replay by done. simpl. apply iterrows_calls.
  - rewrite process_data_no_column by done. apply prefix_nil.
Qed.

Lemma filter_sublist (f : record → bool) (l : list record) :
  List.filter f l `sublist_of` l.
Proof.
  induction l as [|x l IH]; simpl; [done|].
  destruct (f x); by constructor.
Qed.

Lemma expected_calls_rows (frame data : list record) :
  (expected_calls frame data).*2 = registered_rows frame data.
Proof.
  unfold expected_calls. rewrite <- list_fmap_compose.
  apply list_fmap_id.
Qed.

(** Every expected call is for the row of a registered record, with
    the method the mapping gives. *)
Lemma expected_calls_inv (data : list record) (m : string) (r' : row) :
  (m, r') ∈ expected_calls data data →
  ∃ r k, r ∈ data ∧ r' = frame_row data r
         ∧ r !! "key_name" = Some (VStr k)
         ∧ EVENTS_METHODS_MAPPING !! k = Some m.
Proof.
  unfold expected_calls, registered_rows. intros Hin.
  apply list_elem_of_fmap in Hin as (r'' & [= -> ->] & Hin).
  apply list_elem_of_fmap in Hin as (r & -> & Hin).
  apply elem_of_filter_registered in Hin as [Hdata Hreg].
  apply registered_has_key in Hreg as (k & m & Hk & Hm).
  exists r, k. split; [done|]. split; [done|]. split; [done|].
  by rewrite (method_name_of_registered data r k m).
Qed.

End DispatchProperties.

(** ** One pass of the loop *)

Section IterationProperties.
Context `{LoanStateBase} `{Environment DataFrame}.

Lemma query_eq (a : string) (st : loop_state) :
  query a st = Fetch a (last_block st) (last_block st + PAGINATION_SIZE).
Proof. reflexivity. Qed.

Lemma fetched_page_eq (a : string) (st : loop_state) :
  fetched_page a st
  = api_get_data a (last_block st) (last_block st + PAGINATION_SIZE).
Proof. reflexivity. Qed.

Lemma is_empty_true (data : list record) : is_empty data = true ↔ data = [].
Proof. by destruct data. Qed.

(** The ways through the body, by the answer of the source and the
    tests of the [if]. *)
Lemma iteration_fail (mr : nat) (a : string) (st : loop_state) (e : exception) :
  fetched_page a st = inl e →
  iteration mr a st = ([query a st], Raise e).
Proof.
  intros Hd. unfold iteration, fetched_page, query in *. simpl in *.
  by rewrite Hd.
Qed.

Lemma iteration_retry (mr : nat) (a : string) (st : loop_state) :
  fetched_page a st = inr [] → (retry st < mr)%nat →
  iteration mr a st
  = ([query a st],
     Continue {| last_block := last_block st + PAGINATION_SIZE;
                 retry := S (retry st) |}).
Proof.
  intros Hd Hr. unfold iteration, fetched_page, query in *. simpl in *.
  rewrite Hd. simpl. by apply Nat.ltb_lt in Hr as ->.
Qed.

Lemma iteration_break (mr : nat) (a : string) (st : loop_state)
    (data : list record) :
  fetched_page a st = inr data → retry st = mr →
  iteration mr a st = ([query a st], Break st).
Proof.
  intros Hd Hr. unfold iteration, fetched_page, query in *. simpl in *.
  rewrite Hd, Hr, Nat.ltb_irrefl, andb_false_r, Nat.eqb_refl. done.
Qed.

Lemma iteration_process (mr : nat) (a : string) (st : loop_state)
    (data : list record) :
  fetched_page a st = inr data →
  data ≠ [] ∨ (mr < retry st)%nat → retry st ≠ mr →
  iteration mr a st
  = match process_data data with
    | (calls, inl e) => (query a st :: dispatches calls, Raise e)
    | (calls, inr df) =>
        (query a st :: dispatches calls ++ [Save df],
         match save_data (last_block st) df with
         | Some e => Raise e
         | None => Continue {| last_block := last_block st + PAGINATION_SIZE;
                               retry := retry st |}
         end)
    end.
Proof.
  intros Hpage Hd Hr. unfold iteration, fetched_page, query in *. simpl in *.
  rewrite Hpage.
  assert (is_empty data && (retry st <? mr)%nat = false) as ->.
  { apply andb_false_iff. destruct Hd as [Hd|Hd].
    - left. apply not_true_is_false. by rewrite is_empty_true.
    - right. apply Nat.ltb_ge. lia. }
  by apply Nat.eqb_neq in Hr as ->.
Qed.

(** Every pass is one of these. *)
Lemma iteration_inv (mr : nat) (a : string) (st : loop_state) :
  (∃ e, fetched_page a st = inl e)
  ∨ (fetched_page a st = inr [] ∧ (retry st < mr)%nat)
  ∨ (∃ data, fetched_page a st = inr data ∧ retry st = mr)
  ∨ (∃ data, fetched_page a st = inr data
             ∧ (data ≠ [] ∨ (mr < retry st)%nat) ∧ retry st ≠ mr).
Proof.
  destruct (fetched_page a st) as [e|data] eqn:Hd; [left; by exists e|].
  right. destruct (decide (retry st = mr)) as [|Hne]; [right; left; by exists data|].
  destruct data as [|r l].
  - destruct (decide (retry st < mr)%nat); [by left|].
    right; right. exists []. split; [done|]. split; [right; lia|done].
  - right; right. exists (r :: l). split; [done|]. split; [by left|done].
Qed.

(** The same, with what each way emits. *)
Lemma iteration_shape (mr : nat) (a : string) (st : loop_state) :
  (∃ e, iteration mr a st = ([query a st], Raise e)
        ∧ fetched_page a st = inl e)
  ∨ (iteration mr a st
     = ([query a st],
        Continue {| last_block := last_block st + PAGINATION_SIZE;
                    retry := S (retry st) |})
     ∧ fetched_page a st = inr [] ∧ (retry st < mr)%nat)
  ∨ (∃ data, iteration mr a st = ([query a st], Break st)
             ∧ fetched_page a st = inr data ∧ retry st = mr)
  ∨ (∃ data calls e,
       iteration mr a st = (query a st :: dispatches calls, Raise e)
       ∧ fetched_page a st = inr data
       ∧ process_data data = (calls, inl e)
       ∧ (data ≠ [] ∨ (mr < retry st)%nat))
  ∨ (∃ data calls df e,
       iteration mr a st
       = (query a st :: dispatches calls ++ [Save df], Raise e)
       ∧ fetched_page a st = inr data ∧ data ≠ []
       ∧ process_data data = (calls, inr df)
       ∧ save_data (last_block st) df = Some e)
  ∨ (∃ data calls df,
       iteration mr a st
       = (query a st :: dispatches calls ++ [Save df],
          Continue {| last_block := last_block st + PAGINATION_SIZE;
                      retry := retry st |})
       ∧ fetched_page a st = inr data ∧ data ≠ []
       ∧ process_data data = (calls, inr df)
       ∧ save_data (last_block st) df = None).
Proof.
  destruct (iteration_inv mr a st)
    as [[e Hd]|[[Hd Hr]|[(data & Hd & Hr)|(data & Hd & Hne & Hr)]]].
  - left. exists e. by rewrite (iteration_fail _ _ _ e).
  - right; left. by rewrite iteration_retry.
  - right; right; left. exists data. by rewrite (iteration_break _ _ _ data).
  - do 3 right. rewrite (iteration_process _ _ _ data) by done.
    destruct (process_data data) as [calls [e|df]] eqn:Hpd.
    + left. by exists data, calls, e.
    + assert (data ≠ []) as Hfull.
      { intros ->. by cbv in Hpd. }
      right. destruct (save_data (last_block st) df) as [e|] eqn:Hs.
      * left. by exists data, calls, df, e.
      * right. by exists data, calls, df.
Qed.

(** A pass that goes on has moved the cursor by one window, and has
    not lowered [retry]. *)
Lemma iteration_continue (mr : nat) (a : string) (st st' : loop_state)
    (acts : list (action DataFrame)) :
  iteration mr a st = (acts, Continue st') →
  last_block st' = (last_block st + PAGINATION_SIZE)%Z
  ∧ (fetched_page a st = inr [] → retry st' = S (retry st))
  ∧ (∀ data, fetched_page a st = inr data → data ≠ [] → retry st' = retry st)
  ∧ (retry st ≤ retry st')%nat.
Proof.
  intros Hit.
  destruct (iteration_shape mr a st)
    as [(e & Hs & _)|[(Hs & Hd & _)|[(data & Hs & _)|[(data & calls & e & Hs & _)
       |[(data & calls & df & e & Hs & _)|(data & calls & df & Hs & Hd & Hne & _)]]]]];
    rewrite Hs in Hit; inversion Hit; subst; simpl.
  - split; [done|]. split; [done|]. split; [|lia].
    intros data Hd' Hne. congruence.
  - split; [done|]. split; [|split; [done|lia]].
    intros Hd'. congruence.
Qed.

(** A pass sends its query first and no other. *)
Lemma iteration_actions (mr : nat) (a : string) (st : loop_state) :
  ∃ rest, (iteration mr a st).1 = query a st :: rest
          ∧ Forall (λ act, is_fetch act = false) rest.
Proof.
  assert (∀ calls, Forall (λ act : action DataFrame, is_fetch act = false)
                     (dispatches calls)) as Hcalls.
  { intros calls. apply Forall_forall. intros act Hin.
    by apply list_elem_of_fmap in Hin as (c & -> & _). }
  destruct (iteration_shape mr a st)
    as [(e & Hs & _)|[(Hs & _)|[(data & Hs & _)|[(data & calls & e & Hs & _)
       |[(data & calls & df & e & Hs & _)|(data & calls & df & Hs & _)]]]]];
    rewrite Hs; simpl; eexists; (split; [done|]); try done;
    try (apply Forall_app; split; [done|by repeat constructor]).
Qed.

End IterationProperties.

(** ** The two loops *)

Section LoopProperties.
Context `{LoanStateBase} `{Environment DataFrame}.

Lemma while_true_unfold (mr fuel : nat) (a : string) (st : loop_state) :
  while_true mr (S fuel) a st
  = match iteration mr a st with
    | (acts, Continue st') =>
        match while_true mr fuel a st' with
        | Some (acts', r) => Some (acts ++ acts', r)
        | None => None
        end
    | (acts, Break st') => Some (acts, inr st')
    | (acts, Raise e) => Some (acts, inl e)
    end.
Proof. reflexivity. Qed.

Lemma while_true_inv (mr fuel : nat) (a : string) (st : loop_state)
    (acts : list (action DataFrame)) (r : exception + loop_state) :
  while_true mr (S fuel) a st = Some (acts, r) →
  (∃ acts0 st1 acts',
      iteration mr a st = (acts0, Continue st1)
      ∧ while_true mr fuel a st1 = Some (acts', r)
      ∧ acts = acts0 ++ acts')
  ∨ (∃ st', iteration mr a st = (acts, Break st') ∧ r = inr st')
  ∨ (∃ e, iteration mr a st = (acts, Raise e) ∧ r = inl e).
Proof.
  rewrite while_true_unfold.
  destruct (iteration mr a st) as [acts0 [st1|st1|e]].
  - destruct (while_true mr fuel a st1) as [[acts' r']|] eqn:Hw; [|done].
    intros [= <- <-]. left. by eexists _, _, _.
  - intros [= <- <-]. right; left. by eexists.
  - intros [= <- <-]. right; right. by eexists.
Qed.

(** An invariant of the states of a loop, kept by every pass, holds
    for every query the loop sends. *)
Lemma while_true_queries (P : action DataFrame → Prop) (mr : nat) (a : string) :
  (∀ st, P (query a st)) →
  (∀ act, is_fetch act = false → P act) →
  ∀ fuel st acts r,
    while_true mr fuel a st = Some (acts, r) → Forall P acts.
Proof.
  intros Hq Hother. induction fuel as [|fuel IH]; intros st acts r; [done|].
  rewrite while_true_unfold.
  destruct (iteration_actions mr a st) as (rest & Hacts & Hrest).
  destruct (iteration mr a st) as [acts0 out]; simpl in Hacts; subst acts0.
  assert (Forall P (query a st :: rest)) as Hhere.
  { constructor; [apply Hq|]. eapply Forall_impl; [exact Hrest|]. apply Hother. }
  destruct out as [st'|st'|e].
  - destruct (while_true mr fuel a st') as [[acts' r']|] eqn:Hw; [|done].
    intros [= <- <-]. rewrite app_comm_cons. apply Forall_app.
    split; [done|]. by eapply IH.
  - by intros [= <- <-].
  - by intros [= <- <-].
Qed.

Lemma for_addresses_queries (P : action DataFrame → Prop) (mr : nat) :
  (∀ a st, P (query a st)) →
  (∀ act, is_fetch act = false → P act) →
  ∀ fuel addresses st acts r,
    for_addresses mr fuel addresses st = Some (acts, r) → Forall P acts.
Proof.
  intros Hq Hother fuel. induction addresses as [|a rest IH]; intros st acts r; simpl.
  - by intros [= <- <-].
  - destruct (while_true mr fuel a st) as [[acts0 [e|st']]|] eqn:Hw; [| |done].
    + intros [= <- <-]. by eapply (while_true_queries P), Hw.
    + destruct (for_addresses mr fuel rest st') as [[acts' r']|] eqn:Hf; [|done].
      intros [= <- <-]. apply Forall_app. split.
      * by eapply (while_true_queries P), Hw.
      * by eapply IH.
Qed.

Lemma while_true_first (mr : nat) (a : string) :
  ∀ fuel st acts r,
    while_true mr fuel a st = Some (acts, r) →
    ∃ tail, acts = query a st :: tail.
Proof.
  intros [|fuel] st acts r; [done|]. rewrite while_true_unfold.
  destruct (iteration_actions mr a st) as (rest & Hacts & _).
  destruct (iteration mr a st) as [acts0 [st'|st'|e]]; simpl in Hacts; subst.
  - destruct (while_true mr fuel a st') as [[acts' r']|]; [|done].
    intros [= <- <-]. by eexists.
  - intros [= <- <-]. by eexists.
  - intros [= <- <-]. by eexists.
Qed.

(** The loop of an address is only left normally with the budget
    used up, and [retry] never goes down on the way. *)
Lemma while_true_retry (mr : nat) (a : string) :
  ∀ fuel st acts st',
    while_true mr fuel a st = Some (acts, inr st') →
    retry st' = mr ∧ (retry st ≤ retry st')%nat.
Proof.
  induction fuel as [|fuel IH]; intros st acts st' Hw; [done|].
  apply while_true_inv in Hw
    as [(acts0 & st1 & acts' & Hit & Hw & ->)|[(st0 & Hit & [= <-])|(e & _ & ?)]];
    [| |done].
  - apply IH in Hw as [? ?].
    apply iteration_continue in Hit as (_ & _ & _ & ?). split; [done|lia].
  - destruct (iteration_shape mr a st)
      as [(e & Hs & _)|[(Hs & _)|[(data & Hs & _ & Hr)|[(data & calls & e & Hs & _)
         |[(data & calls & df & e & Hs & _)|(data & calls & df & Hs & _)]]]]];
      rewrite Hs in Hit; inversion Hit; subst. done.
Qed.

(** With the budget used up, an address whose query is answered is left
    after that one query. *)
Lemma for_addresses_exhausted (mr fuel : nat) (addresses : list string)
    (st : loop_state) :
  retry st = mr → (0 < fuel)%nat →
  (∀ b, b ∈ addresses → ∃ data, fetched_page b st = inr data) →
  for_addresses mr fuel addresses st
  = Some (map (λ b, query b st) addresses, inr st).
Proof.
  intros Hr Hfuel. destruct fuel as [|fuel]; [lia|].
  induction addresses as [|a rest IH]; intros Hans; [done|].
  cbn [for_addresses]. rewrite while_true_unfold.
  destruct (Hans a) as [data Hdata]; [left|].
  rewrite (iteration_break _ _ _ data) by done.
  rewrite IH; [done|]. intros b Hb. apply Hans. by right.
Qed.

(** With the budget used up, a run that ends normally has sent one
    query to each address and changed nothing. *)
Lemma for_addresses_exhausted_inv (mr fuel : nat) (addresses : list string) :
  ∀ st acts st',
    retry st = mr →
    for_addresses mr fuel addresses st = Some (acts, inr st') →
    acts = map (λ b, query b st) addresses ∧ st' = st.
Proof.
  induction addresses as [|a rest IH]; intros st acts st' Hr; simpl.
  - by intros [= <- <-].
  - destruct (while_true mr fuel a st) as [[acts0 [e|st1]]|] eqn:Hw; [done| |done].
    destruct (for_addresses mr fuel rest st1) as [[acts' r']|] eqn:Hf; [|done].
    intros [= <- ->].
    assert (acts0 = [query a st] ∧ st1 = st) as [-> ->].
    { destruct fuel as [|fuel]; [done|].
      apply while_true_inv in Hw
        as [(acts1 & st2 & acts2 & Hit & _)|[(st0 & Hit & [= <-])|(e & _ & ?)]];
        [| |done];
        destruct (iteration_shape mr a st)
          as [(e & Hs & _)|[(Hs & _ & Hlt)|[(data & Hs & _)|[(data & calls & e & Hs & _)
             |[(data & calls & df & e & Hs & _)
              |(data & calls & df & Hs & Hd & Hne & Hpd & _)]]]]];
        rewrite Hs in Hit; inversion Hit; subst; try lia; try done.
      (* a page processed with the budget used up: the pass breaks first *)
      rewrite (iteration_break _ _ _ data) in Hs by done. by inversion Hs. }
    destruct (IH _ _ _ Hr Hf) as [-> ->]. done.
Qed.

Lemma saved_app (l1 l2 : list (action DataFrame)) :
  saved (l1 ++ l2) = saved l1 ++ saved l2.
Proof. apply flat_map_app. Qed.

Lemma queries_app (l1 l2 : list (action DataFrame)) :
  queries (l1 ++ l2) = queries l1 ++ queries l2.
Proof. apply List.filter_app. Qed.

Lemma saved_dispatch (calls : list (string * row)) :
  saved (dispatches calls) = [].
Proof. by induction calls. Qed.

Lemma queries_none (acts : list (action DataFrame)) :
  Forall (λ act, is_fetch act = false) acts → queries acts = [].
Proof.
  induction 1 as [|act acts Hact _ IH]; [done|].
  unfold queries in *. simpl. by rewrite Hact.
Qed.

Lemma iteration_queries (mr : nat) (a : string) (st : loop_state) :
  queries (iteration mr a st).1 = [query a st].
Proof.
  destruct (iteration_actions mr a st) as (rest & -> & Hrest).
  change (query a st :: rest) with ([query a st] ++ rest).
  rewrite queries_app, (queries_none rest) by done. done.
Qed.

Lemma queries_of_queries (addresses : list string) (st : loop_state) :
  queries (map (λ b, query b st) addresses) = map (λ b, query b st) addresses.
Proof.
  induction addresses as [|b rest IH]; [done|].
  unfold queries in *. simpl. by rewrite IH.
Qed.

Lemma saved_of_queries (addresses : list string) (st : loop_state) :
  saved (map (λ b, query b st) addresses) = [].
Proof. by induction addresses. Qed.

(** A pass that goes on either saved one frame or used one unit of the
    budget, and stays within the budget if it started within it. *)
Lemma iteration_account (mr : nat) (a : string) (st st' : loop_state)
    (acts : list (action DataFrame)) :
  iteration mr a st = (acts, Continue st') →
  (length (saved acts) + (retry st' - retry st) = 1)%nat
  ∧ (retry st ≤ retry st')%nat
  ∧ ((retry st ≤ mr)%nat → (retry st' ≤ mr)%nat).
Proof.
  intros Hit.
  destruct (iteration_shape mr a st)
    as [(e & Hs & _)|[(Hs & _ & Hr)|[(data & Hs & _)|[(data & calls & e & Hs & _)
       |[(data & calls & df & e & Hs & _)|(data & calls & df & Hs & _)]]]]];
    rewrite Hs in Hit; inversion Hit; subst; simpl.
  - lia.
  - rewrite saved_app, saved_dispatch. simpl. lia.
Qed.

Lemma windows_S (a : string) (start : Z) (n : nat) :
  windows a start (S n)
  = Fetch a start (start + PAGINATION_SIZE)
      :: windows a (start + PAGINATION_SIZE) n.
Proof.
  unfold windows. cbn [seq map]. f_equal.
  - f_equal; lia.
  - rewrite <- seq_shift, map_map. apply map_ext. intros i. f_equal; lia.
Qed.

Lemma windows_length (a : string) (start : Z) (n : nat) :
  length (windows a start n) = n.
Proof. unfold windows. by rewrite length_map, length_seq. Qed.

Lemma fetches_for_windows (a : string) (start : Z) (n : nat) :
  fetches_for a (windows a start n) = windows a start n.
Proof.
  revert start. induction n as [|n IH]; intros start; [done|].
  rewrite windows_S. unfold fetches_for in *. cbn [List.filter is_fetch_for].
  rewrite bool_decide_eq_true_2 by done. by rewrite IH.
Qed.

Lemma fetches_for_other (a : string) (addresses : list string)
    (st : loop_state) :
  a ∉ addresses →
  fetches_for a (map (λ b, query b st) addresses) = [].
Proof.
  induction addresses as [|b rest IH]; intros Hnotin; [done|].
  apply not_elem_of_cons in Hnotin as [Hne Hrest].
  unfold fetches_for in *. cbn [map List.filter]. rewrite query_eq.
  cbn [is_fetch_for]. rewrite bool_decide_eq_false_2 by done. by apply IH.
Qed.

(** When the loop of an address is left normally, every query but the
    last one either had its frame saved or used one unit of the retry
    budget, and the cursor has moved by as many windows. *)
Lemma while_true_account (mr : nat) (a : string) :
  ∀ fuel st acts st',
    while_true mr fuel a st = Some (acts, inr st') →
    length (queries acts) = S (length (saved acts) + (mr - retry st))
    ∧ last_block st'
      = (last_block st
         + Z.of_nat (length (saved acts) + (mr - retry st)) * PAGINATION_SIZE)%Z.
Proof.
  induction fuel as [|fuel IH]; intros st acts st' Hw; [done|].
  pose proof (iteration_queries mr a st) as Hq.
  pose proof (while_true_retry _ _ _ _ _ _ Hw) as [Hend Hle].
  apply while_true_inv in Hw
    as [(acts0 & st1 & acts' & Hit & Hw & ->)|[(st0 & Hit & [= <-])|(e & _ & ?)]];
    [| |done].
  - rewrite Hit in Hq; simpl in Hq.
    pose proof (while_true_retry _ _ _ _ _ _ Hw) as [_ Hle1].
    apply IH in Hw as [Hn Hlb].
    pose proof (iteration_account _ _ _ _ _ Hit) as (Hone & Hle0 & _).
    apply iteration_continue in Hit as (Hlb1 & _).
    rewrite queries_app, saved_app, !length_app, Hq, Hn, Hlb, Hlb1. simpl.
    split; [lia|].
    replace (length (saved acts0) + length (saved acts') + (mr - retry st))%nat
      with (S (length (saved acts') + (mr - retry st1))) by lia.
    lia.
  - rewrite Hit in Hq; simpl in Hq.
    destruct (iteration_shape mr a st)
      as [(e & Hs & _)|[(Hs & _)|[(data & Hs & _ & Hr)|[(data & calls & e & Hs & _)
         |[(data & calls & df & e & Hs & _)|(data & calls & df & Hs & _)]]]]];
      rewrite Hs in Hit; inversion Hit; subst.
    simpl. rewrite Nat.sub_diag. simpl. split; [done|lia].
Qed.

(** From [retry = max_retries - k], with nothing but empty pages from
    the cursor on, the loop of an address sends [k + 1] queries, one
    window after the other, and is left. *)
Lemma while_true_silent (mr : nat) (a : string) (k : nat) :
  ∀ fuel st,
    (∀ i : nat, (i ≤ k)%nat →
       api_get_data a (last_block st + Z.of_nat i * PAGINATION_SIZE)
         (last_block st + Z.of_nat i * PAGINATION_SIZE + PAGINATION_SIZE)
       = inr []) →
    (retry st + k = mr)%nat → (k < fuel)%nat →
    while_true mr fuel a st
    = Some (windows a (last_block st) (S k),
            inr {| last_block := last_block st + Z.of_nat k * PAGINATION_SIZE;
                   retry := mr |}).
Proof.
  induction k as [|k IH]; intros fuel st Hquiet Hr Hfuel;
    (destruct fuel as [|fuel]; [lia|]); rewrite while_true_unfold;
    pose proof (Hquiet 0%nat ltac:(lia)) as Hhere;
    rewrite Z.mul_0_l, Z.add_0_r in Hhere.
  - rewrite (iteration_break _ _ _ []) by (done || lia).
    rewrite windows_S, query_eq. simpl.
    do 3 f_equal. destruct st as [lb r]; simpl in *. f_equal; lia.
  - rewrite iteration_retry by (done || lia).
    rewrite (IH fuel); [| |simpl; lia|lia].
    + simpl. rewrite (windows_S a (last_block st)), query_eq. do 4 f_equal. lia.
    + intros i Hi. simpl. specialize (Hquiet (S i) ltac:(lia)).
      rewrite <- Hquiet. f_equal; lia.
Qed.

End LoopProperties.

(** ** The dispatcher: unknown tags, order, the [key_name] column *)

Section DispatcherClaims.
Context `{LoanStateBase} `{Environment DataFrame}.

(** C6. An event whose [key_name] is not a key of the mapping is
    skipped, in a page of any size: the loop over the rows goes from the
    record before it to the record after it with the state unchanged, so
    [process_data] makes the calls of the other registered records of
    the page and no other, [process_event] is never called for a row
    with this tag, and no exception comes from it.  A page made of this
    event alone gives the snapshot of the newly constructed state, which
    the loop hands to [save_data] before it goes on to the next
    window. *)
Theorem unknown_tag_is_skipped (r : record) (tag : string) :
  r !! "key_name" = Some (VStr tag) →
  EVENTS_METHODS_MAPPING !! tag = None →
  (∀ frame st pre post,
     replay frame st (pre ++ r :: post) = replay frame st (pre ++ post))
  ∧ (∀ pre post,
       process_data (pre ++ r :: post)
       = ((replay (pre ++ r :: post) NostraAlphaState (pre ++ post)).1,
          result_df (replay (pre ++ r :: post) NostraAlphaState (pre ++ post)).2))
  ∧ (∀ data m r', (m, r') ∈ (process_data data).1 →
       r' !! "key_name" ≠ Some (CStr tag))
  ∧ process_data [r] = ([], inr (get_result_df (loan_entities NostraAlphaState)))
  ∧ (∀ mr a st, fetched_page a st = inr [r] → retry st ≠ mr →
       iteration mr a st
       = ([query a st; Save (get_result_df (loan_entities NostraAlphaState))],
          match save_data (last_block st)
                  (get_result_df (loan_entities NostraAlphaState)) with
          | Some e => Raise e
          | None => Continue {| last_block := last_block st + PAGINATION_SIZE;
                                retry := retry st |}
          end)).
Proof.
  intros Hkey Habsent.
  pose proof (registered_absent r tag Hkey Habsent) as Hreg.
  assert (∀ pre post, has_column "key_name" (pre ++ r :: post) = true) as Hcol.
  { intros pre post. apply has_column_true. exists r. split.
    - apply elem_of_app. right. left.
    - by rewrite Hkey. }
  assert (process_data [r]
          = ([], inr (get_result_df (loan_entities NostraAlphaState)))) as Hone.
  { rewrite process_data_replay by apply (Hcol [] []).
    unfold replay, registered_rows. simpl. by rewrite Hreg. }
  split; [|split; [|split; [|split]]].
  - intros frame st pre post. by apply replay_skip.
  - intros pre post. rewrite process_data_replay by auto.
    by rewrite replay_skip.
  - intros data m r' Hin Hcell.
    destruct (process_data_calls_prefix data) as [rest Hrest].
    assert ((m, r') ∈ expected_calls data data) as Hexp.
    { rewrite Hrest. apply elem_of_app. by left. }
    apply expected_calls_inv in Hexp as (r0 & k & _ & -> & Hk & Hm).
    apply frame_row_str_inv in Hcell. congruence.
  - exact Hone.
  - intros mr a st Hpage Hr.
    rewrite (iteration_process _ _ _ [r]) by (try left; done).
    by rewrite Hone.
Qed.

(** C7. The registered records of a page are applied to the ledger in
    the order the page lists them: the calls of [process_event] are, in
    page order, those for the rows of the registered records, each with
    the method its [key_name] maps to, and the frame returned is the
    projection of the state obtained by applying exactly these calls one
    after the other to the newly constructed state.  When a call raises,
    the calls made are an initial part of that sequence. *)
Theorem dispatch_in_page_order (data : list record) :
  (process_data data).1 `prefix_of` expected_calls data data
  ∧ (expected_calls data data).*2
    = map (frame_row data) (List.filter registered data)
  ∧ List.filter registered data `sublist_of` data
  ∧ (process_data data).2
    = match column "key_name" data with
      | inl e => inl e
      | inr _ =>
          result_df (apply_in_order NostraAlphaState (expected_calls data data))
      end
  ∧ (∀ df, (process_data data).2 = inr df →
       (process_data data).1 = expected_calls data data).
Proof.
  split; [apply process_data_calls_prefix|].
  split; [apply expected_calls_rows|].
  split; [apply filter_sublist|]. split.
  - unfold column. destruct (has_column "key_name" data) eqn:Hcol.
    + rewrite process_data_replay by done. simpl.
      unfold replay, expected_calls. by rewrite iterrows_apply.
    + by rewrite process_data_no_column.
  - intros df Hok. by apply process_data_ok in Hok as (_ & ? & _).
Qed.

(** C10 (as amended). [process_data] raises [KeyError] at the column
    access, before any call and before any snapshot, exactly when no
    record of the list has a [key_name] field.  As soon as one record
    has the field the column is defined, the records without it are
    skipped like those with an unknown tag, and the result is the
    replay of the registered records. *)
Theorem key_name_column (data : list record) :
  ((∀ r, r ∈ data → r !! "key_name" = None) →
     process_data data = ([], inl (KeyError "key_name")))
  ∧ ((∃ r, r ∈ data ∧ is_Some (r !! "key_name")) →
       column "key_name" data = inr (map (λ r : record, r !! "key_name") data)
       ∧ process_data data
         = ((replay data NostraAlphaState data).1,
            result_df (replay data NostraAlphaState data).2))
  ∧ (data ≠ [] → (∀ r, r ∈ data → is_Some (r !! "key_name")) →
       column "key_name" data = inr (map (λ r : record, r !! "key_name") data))
  ∧ (∀ r, r ∈ data → r !! "key_name" = None → registered r = false).
Proof.
  split; [|split; [|split]].
  - intros Hnone. apply process_data_no_column. by apply has_column_false.
  - intros Hsome. apply has_column_true in Hsome.
    split; [by unfold column; rewrite Hsome|by apply process_data_replay].
  - intros Hne Hall. unfold column.
    assert (has_column "key_name" data = true) as ->; [|done].
    destruct data as [|r data]; [done|].
    apply has_column_true. exists r. split; [left|apply Hall; left].
  - intros r _ Hnone. unfold registered. by rewrite Hnone.
Qed.

End DispatcherClaims.

(** ** The ingestion loop *)

Section LoopClaims.
Context `{LoanStateBase} `{Environment DataFrame}.

(** C1 (as amended). Against a source that returns an empty page to
    every query, [run] ends, whatever the configured addresses, once
    the bound on passes exceeds [max_retries]; for the first address it
    sends exactly [max_retries + 1] queries, one window after the other
    from the starting block, and then it moves on: each later address is
    sent one query, from the block where the first address stopped. *)
Theorem retry_bound_on_silent_source (mr fuel : nat) (a : string)
    (rest : list string) :
  (∀ addr lo hi, api_get_data addr lo hi = inr []) →
  PROTOCOL_ADDRESSES = a :: rest →
  (mr < fuel)%nat →
  let stop := (initial_last_block + Z.of_nat mr * PAGINATION_SIZE)%Z in
  run_with mr fuel
  = Some (windows a initial_last_block (S mr)
            ++ map (λ b, Fetch b stop (stop + PAGINATION_SIZE)) rest,
          inr {| last_block := stop; retry := mr |})
  ∧ length (windows a initial_last_block (S mr)) = S mr
  ∧ (a ∉ rest →
       fetches_for a
         (windows a initial_last_block (S mr)
            ++ map (λ b, Fetch b stop (stop + PAGINATION_SIZE)) rest)
       = windows a initial_last_block (S mr)).
Proof.
  intros Hsilent Haddrs Hfuel stop.
  split; [|split; [apply windows_length|]].
  - unfold run_with. rewrite Haddrs. cbn [for_addresses].
    rewrite (while_true_silent mr a mr) by (simpl; auto; lia).
    rewrite for_addresses_exhausted; [done|done|lia|].
    intros b _. exists []. apply Hsilent.
  - intros Hnotin. unfold fetches_for. rewrite List.filter_app.
    fold (fetches_for a (windows a initial_last_block (S mr))).
    rewrite fetches_for_windows.
    match goal with |- _ ++ ?l = _ => assert (l = []) as -> end.
    { apply (fetches_for_other a rest {| last_block := stop; retry := mr |}
               Hnotin). }
    apply app_nil_r.
Qed.

(** C2 (as amended). A non-empty page fetched while [retry] differs
    from [max_retries] is never discarded: it is handed to
    [process_data].  If no record of it has a [key_name] the run ends
    with [KeyError] and nothing dispatched; if [process_data] raises in
    any way the run ends with that exception after the calls made so
    far, and nothing is saved.  Otherwise every registered record of the
    page has been dispatched in order, the frame is the projection of
    the state these calls build from a newly constructed one, and it is
    handed to [save_data]; the loop then goes on, the cursor one window
    further and [retry] unchanged, unless [save_data] raises, which ends
    the run. *)
Theorem non_empty_page_is_processed (mr : nat) (a : string) (st : loop_state)
    (data : list record) :
  fetched_page a st = inr data →
  data ≠ [] →
  retry st ≠ mr →
  ((∀ r, r ∈ data → r !! "key_name" = None) →
     iteration mr a st = ([query a st], Raise (KeyError "key_name")))
  ∧ (∀ calls e, process_data data = (calls, inl e) →
       iteration mr a st = (query a st :: dispatches calls, Raise e))
  ∧ (∀ calls df, process_data data = (calls, inr df) →
       calls = expected_calls data data
       ∧ (∃ ledger,
            apply_in_order NostraAlphaState calls = inr ledger
            ∧ df = get_result_df (loan_entities ledger))
       ∧ iteration mr a st
         = (query a st :: dispatches calls ++ [Save df],
            match save_data (last_block st) df with
            | Some e => Raise e
            | None => Continue {| last_block := last_block st + PAGINATION_SIZE;
                                  retry := retry st |}
            end)).
Proof.
  intros Hpage Hne Hr.
  pose proof (iteration_process mr a st data Hpage (or_introl Hne) Hr) as Hit.
  split; [|split].
  - intros Hnone. rewrite Hit.
    rewrite process_data_no_column by by apply has_column_false. done.
  - intros calls e Hpd. by rewrite Hit, Hpd.
  - intros calls df Hpd.
    assert ((process_data data).2 = inr df) as Hdf by by rewrite Hpd.
    pose proof (process_data_ok _ _ Hdf) as (_ & Hcalls & ledger & Hledger & Hproj).
    rewrite Hpd in Hcalls. simpl in Hcalls.
    split; [done|]. split; [|by rewrite Hit, Hpd].
    exists ledger. split; [|done].
    unfold replay in Hledger. rewrite iterrows_apply in Hledger.
    by rewrite Hcalls.
Qed.

Lemma saves_follow_pages_app (l1 l2 : list (action DataFrame)) :
  saves_follow_pages l1 → saves_follow_pages l2 →
  saves_follow_pages (l1 ++ l2).
Proof.
  intros H1 H2 pre df post Heq.
  apply app_eq_inv in Heq as [(k & -> & Hk)|(k & -> & ->)].
  - destruct k as [|x k].
    + simpl in Hk. symmetry in Hk.
      destruct (H2 [] df post Hk) as (pre' & a & lo & data & Hpre & _).
      by destruct pre'.
    + injection Hk as <- ->.
      by apply (H1 pre df k).
  - destruct (H2 k df post eq_refl) as (pre' & a & lo & data & -> & ?).
    exists (l1 ++ pre'), a, lo, data. by rewrite <- app_assoc.
Qed.

Lemma saves_follow_pages_none (l : list (action DataFrame)) :
  (∀ df, Save df ∉ l) → saves_follow_pages l.
Proof.
  intros Hnone pre df post ->. exfalso. apply (Hnone df).
  apply elem_of_app. right. left.
Qed.

Lemma no_save_in_head (a : string) (st : loop_state)
    (calls : list (string * row)) (df : DataFrame) :
  Save df ∉ query a st :: dispatches calls.
Proof.
  rewrite query_eq. intros Hin. apply elem_of_cons in Hin as [Hin|Hin]; [done|].
  by apply list_elem_of_fmap in Hin as (c & ? & _).
Qed.

Lemma saves_follow_pages_iteration (mr : nat) (a : string) (st : loop_state) :
  saves_follow_pages (iteration mr a st).1.
Proof.
  assert (∀ df, Save df ∉ [query a st]) as Hq.
  { intros df. apply (no_save_in_head a st []). }
  assert (∀ data calls df,
            fetched_page a st = inr data → data ≠ [] →
            process_data data = (calls, inr df) →
            saves_follow_pages (query a st :: dispatches calls ++ [Save df]))
    as Hsaved.
  { intros data calls df Hpage Hne Hpd pre df' post Heq.
    assert ((process_data data).2 = inr df) as Hdf by by rewrite Hpd.
    pose proof (process_data_ok _ _ Hdf) as (_ & Hcalls & ledger & Hledger & Hproj).
    rewrite Hpd in Hcalls. simpl in Hcalls. subst calls.
    rewrite app_comm_cons in Heq.
    assert (pre = query a st :: dispatches (expected_calls data data)
            ∧ df' = df) as [-> ->].
    { apply app_eq_inv in Heq as [(k & Hhead & Hk)|(k & Hpre & Hk)].
      - destruct k as [|x k]; simpl in Hk.
        + injection Hk as -> _. by rewrite app_nil_r in Hhead.
        + injection Hk as <- _. exfalso.
          eapply (no_save_in_head a st). rewrite Hhead.
          apply elem_of_app. right. left.
      - destruct k as [|x k]; simpl in Hk.
        + injection Hk as -> _. by rewrite app_nil_r in Hpre.
        + injection Hk as _ Hk. by destruct k. }
    exists [], a, (last_block st), data. split; [done|]. split; [done|].
    split; [done|]. exists ledger. split; [|done].
    unfold replay in Hledger. by rewrite iterrows_apply in Hledger. }
  destruct (iteration_shape mr a st)
    as [(e & Hs & _)|[(Hs & _)|[(data & Hs & _)|[(data & calls & e & Hs & _)
       |[(data & calls & df & e & Hs & Hd & Hne & Hpd & _)
        |(data & calls & df & Hs & Hd & Hne & Hpd & _)]]]]];
    rewrite Hs; simpl.
  - by apply saves_follow_pages_none.
  - by apply saves_follow_pages_none.
  - by apply saves_follow_pages_none.
  - apply saves_follow_pages_none. intros df. apply no_save_in_head.
  - by eapply Hsaved.
  - by eapply Hsaved.
Qed.

Lemma saves_follow_pages_while_true (mr : nat) (a : string) :
  ∀ fuel st acts r,
    while_true mr fuel a st = Some (acts, r) → saves_follow_pages acts.
Proof.
  induction fuel as [|fuel IH]; intros st acts r Hw; [done|].
  pose proof (saves_follow_pages_iteration mr a st) as Hhere.
  apply while_true_inv in Hw
    as [(acts0 & st1 & acts' & Hit & Hw & ->)|[(st' & Hit & _)|(e & Hit & _)]];
    rewrite Hit in Hhere; simpl in Hhere; [|done|done].
  apply saves_follow_pages_app; [done|]. by eapply IH.
Qed.

(** C3 (as amended). Nothing is carried from one page to the next:
    every frame [run] hands to [save_data], the last one included, comes
    right after the query of one page and the calls for the registered
    rows of that page, and it is the projection of the state that these
    calls alone, applied in order, build from a newly constructed
    state.  The final snapshot is thus that of the last page processed,
    whatever the pages before it held. *)
Theorem saved_frame_is_of_its_own_page (mr fuel : nat)
    (acts : list (action DataFrame)) (r : exception + loop_state)
    (pre post : list (action DataFrame)) (df : DataFrame) :
  run_with mr fuel = Some (acts, r) →
  acts = pre ++ Save df :: post →
  ∃ pre' a lo data ledger,
    pre = pre' ++ Fetch a lo (lo + PAGINATION_SIZE)
                   :: dispatches (expected_calls data data)
    ∧ api_get_data a lo (lo + PAGINATION_SIZE) = inr data
    ∧ data ≠ []
    ∧ apply_in_order NostraAlphaState (expected_calls data data) = inr ledger
    ∧ df = get_result_df (loan_entities ledger).
Proof.
  intros Hrun Heq.
  assert (saves_follow_pages acts) as Hall.
  { revert Hrun. unfold run_with.
    generalize {| last_block := initial_last_block; retry := 0 |}.
    clear Heq. revert acts r.
    induction PROTOCOL_ADDRESSES as [|b rest IH]; intros acts r st; simpl.
    - intros [= <- <-]. by apply saves_follow_pages_none; intros ? ?%elem_of_nil.
    - destruct (while_true mr fuel b st) as [[acts0 [e|st']]|] eqn:Hw; [| |done].
      + intros [= <- <-]. by eapply saves_follow_pages_while_true.
      + destruct (for_addresses mr fuel rest st') as [[acts' r']|] eqn:Hf; [|done].
        intros [= <- <-]. apply saves_follow_pages_app.
        * by eapply saves_follow_pages_while_true.
        * by eapply IH. }
  destruct (Hall pre df post Heq)
    as (pre' & a & lo & data & Hpre & Hpage & Hne & ledger & Hledger & Hdf).
  by exists pre', a, lo, data, ledger.
Qed.

End LoopClaims.

(** ** The cursor and the retry counter *)

Section CursorClaims.
Context `{LoanStateBase} `{Environment DataFrame}.

(** C4 (as amended). [retry] belongs to the whole run: it is set to 0
    once, before the first address, and nothing resets it.  A pass
    over a non-empty page leaves it as it was, a pass over an empty
    page within the budget adds one, and the value an address ends
    with, which is [max_retries], is the value the next address
    starts with. *)
Theorem retry_is_never_reset (mr : nat) :
  (∀ fuel, run_with mr fuel
           = for_addresses mr fuel PROTOCOL_ADDRESSES
               {| last_block := initial_last_block; retry := 0 |})
  ∧ (∀ a st acts st', iteration mr a st = (acts, Continue st') →
       (∀ data, fetched_page a st = inr data → data ≠ [] →
                retry st' = retry st)
       ∧ (fetched_page a st = inr [] → retry st' = S (retry st)))
  ∧ (∀ fuel a rest st acts st',
       while_true mr fuel a st = Some (acts, inr st') →
       (retry st ≤ retry st')%nat
       ∧ retry st' = mr
       ∧ for_addresses mr fuel (a :: rest) st
         = match for_addresses mr fuel rest st' with
           | Some (acts', r) => Some (acts ++ acts', r)
           | None => None
           end).
Proof.
  split; [done|]. split.
  - intros a st acts st' Hit.
    by apply iteration_continue in Hit as (_ & ? & ? & _).
  - intros fuel a rest st acts st' Hw.
    pose proof (while_true_retry _ _ _ _ _ _ Hw) as [? ?].
    split; [done|]. split; [done|]. simpl. by rewrite Hw.
Qed.

(** C5 (as amended). The cursor is not initialised again between
    addresses: the first query for the next address starts from the
    block the previous address stopped at. *)
Theorem cursor_carries_over (mr fuel : nat) (a b : string)
    (rest : list string) (st st' : loop_state)
    (acts trace : list (action DataFrame))
    (r : exception + loop_state) :
  while_true mr fuel a st = Some (acts, inr st') →
  for_addresses mr fuel (a :: b :: rest) st = Some (trace, r) →
  ∃ tail,
    trace = acts ++ Fetch b (last_block st')
                      (last_block st' + PAGINATION_SIZE) :: tail.
Proof.
  intros Hw. cbn [for_addresses]. rewrite Hw.
  destruct (while_true mr fuel b st') as [[acts' r']|] eqn:Hb; [|done].
  apply while_true_first in Hb as [tail ->].
  destruct r' as [e|st2].
  - intros [= <- <-]. by exists tail.
  - destruct (for_addresses mr fuel rest st2) as [[acts2 r2]|]; [|done].
    intros [= <- <-]. by exists (tail ++ acts2).
Qed.

(** C8. Every query asks for the blocks from the cursor to the cursor
    plus [PAGINATION_SIZE]: a pass sends one query, first, with these
    bounds, and every query of a run has its upper bound one window
    above its lower bound. *)
Theorem fetch_covers_one_window (mr : nat) :
  (∀ a st, ∃ rest,
      (iteration mr a st).1
      = Fetch a (last_block st) (last_block st + PAGINATION_SIZE) :: rest
      ∧ Forall (λ act, is_fetch act = false) rest)
  ∧ (∀ fuel acts r, run_with mr fuel = Some (acts, r) →
       ∀ a lo hi, Fetch a lo hi ∈ acts →
                  hi = (lo + PAGINATION_SIZE)%Z ∧ a ∈ PROTOCOL_ADDRESSES).
Proof.
  split; [intros a st; apply iteration_actions|].
  intros fuel acts r Hrun a lo hi Hin.
  split.
  - pose (P := λ act : action DataFrame,
                 match act with
                 | Fetch _ lo hi => hi = (lo + PAGINATION_SIZE)%Z
                 | _ => True
                 end).
    assert (Forall P acts) as Hall.
    { eapply (for_addresses_queries P); [| |exact Hrun].
      - intros. by rewrite query_eq.
      - by intros []. }
    rewrite Forall_forall in Hall. exact (Hall _ Hin).
  - revert acts r Hrun Hin. unfold run_with.
    generalize {| last_block := initial_last_block; retry := 0 |}.
    induction PROTOCOL_ADDRESSES as [|b rest IH]; intros st acts r; simpl.
    + intros [= <- <-] Hin. by apply elem_of_nil in Hin.
    + destruct (while_true mr fuel b st) as [[acts0 r0]|] eqn:Hw; [|done].
      assert (Forall (λ act, match act with
                             | Fetch a' _ _ => a' = b
                             | _ => True
                             end) acts0) as Hb.
      { eapply (while_true_queries _ mr b); [| |exact Hw].
        - intros. by rewrite query_eq.
        - by intros []. }
      rewrite Forall_forall in Hb.
      destruct r0 as [e|st'].
      * intros [= <- <-] Hin. rewrite (Hb _ Hin). left.
      * destruct (for_addresses mr fuel rest st') as [[acts' r']|] eqn:Hf; [|done].
        intros [= <- <-] Hin. apply elem_of_app in Hin as [Hin|Hin].
        -- rewrite (Hb _ Hin). left.
        -- right. by eapply IH.
Qed.

(** C9. A pass after which the loop goes on fetching, whether its
    page was empty or not, leaves the cursor exactly one window
    further, which is strictly further for a positive window. *)
Theorem cursor_advances_by_window (mr : nat) (a : string)
    (st st' : loop_state) (acts : list (action DataFrame)) :
  (0 < PAGINATION_SIZE)%Z →
  iteration mr a st = (acts, Continue st') →
  last_block st' = (last_block st + PAGINATION_SIZE)%Z
  ∧ (last_block st < last_block st')%Z.
Proof.
  intros Hpos Hit. apply iteration_continue in Hit as (Hlb & _).
  split; [done|lia].
Qed.

End CursorClaims.

(** * Further properties of [process_data] *)

Section ReplayProperties.
Context `{LoanStateBase}.

(** X3. A page with a [key_name] column but no registered record makes
    no call and gives the snapshot of the fresh state. *)
Theorem page_without_registered_records (data : list record) :
  has_column "key_name" data = true →
  (∀ r, r ∈ data → registered r = false) →
  process_data data = ([], inr (get_result_df (loan_entities NostraAlphaState))).
Proof.
  intros Hcol Hnone. rewrite process_data_replay by done.
  unfold replay, registered_rows.
  assert (List.filter registered data = []) as ->; [|done].
  induction data as [|r data IH] in Hnone |- *; simpl; [done|].
  rewrite (Hnone r) by left. apply IH. intros r' Hr. apply Hnone. by right.
Qed.

(** X4. Every call [process_data] makes is for the row of a record of
    the page whose [key_name] is a key of the mapping, and with the
    method the mapping gives for it: the default [""] is never what is
    called. *)
Theorem calls_follow_the_mapping (data : list record) (m : string)
    (r' : row) :
  (m, r') ∈ (process_data data).1 →
  ∃ r, r ∈ data
       ∧ r' = frame_row data r
       ∧ ∃ k, r !! "key_name" = Some (VStr k)
              ∧ r' !! "key_name" = Some (CStr k)
              ∧ EVENTS_METHODS_MAPPING !! k = Some m.
Proof.
  intros Hin.
  destruct (process_data_calls_prefix data) as [rest Hrest].
  assert ((m, r') ∈ expected_calls data data) as Hexp.
  { rewrite Hrest. apply elem_of_app. by left. }
  apply expected_calls_inv in Hexp as (r & k & Hdata & -> & Hk & Hm).
  exists r. split; [done|]. split; [done|]. exists k.
  split; [done|]. split; [by apply frame_row_str|done].
Qed.

Lemma replay_first_failure (frame pre post : list record) (r : record)
    (st0 st : State) (e : exception) :
  registered r = true →
  (replay frame st0 pre).2 = inr st →
  process_event st (method_name_of (frame_row frame r)) (frame_row frame r)
  = inl e →
  replay frame st0 (pre ++ r :: post)
  = (expected_calls frame pre
       ++ [(method_name_of (frame_row frame r), frame_row frame r)],
     inl e).
Proof.
  intros Hreg Hpre Hfail. rewrite replay_app.
  pose proof (proj2 (iterrows_calls (registered_rows frame pre) st0) st Hpre)
    as Hcalls.
  fold (replay frame st0 pre) in Hcalls. fold (expected_calls frame pre) in Hcalls.
  destruct (replay frame st0 pre) as [calls1 r1]; simpl in Hpre, Hcalls.
  subst calls1 r1.
  unfold replay, registered_rows. simpl. rewrite Hreg. simpl. by rewrite Hfail.
Qed.

(** X5. The first call that raises ends the page: the calls made are
    those of the records before it and the failing one, the records
    after it are not dispatched, and the exception is the result. *)
Theorem first_failure_ends_the_page (pre post : list record) (r : record)
    (st : State) (e : exception) :
  let data := pre ++ r :: post in
  registered r = true →
  (replay data NostraAlphaState pre).2 = inr st →
  process_event st (method_name_of (frame_row data r)) (frame_row data r)
  = inl e →
  process_data data
  = (expected_calls data pre
       ++ [(method_name_of (frame_row data r), frame_row data r)],
     inl e).
Proof.
  intros data Hreg Hpre Hfail.
  rewrite process_data_replay.
  - pose proof (replay_first_failure data pre post r NostraAlphaState st e
                  Hreg Hpre Hfail) as Hrep.
    change (pre ++ r :: post) with data in Hrep. by rewrite Hrep.
  - eapply registered_column; [|exact Hreg]. apply elem_of_app. right. left.
Qed.

End ReplayProperties.

(** * Further properties of [run] *)

Section RunProperties.
Context `{LoanStateBase} `{Environment DataFrame}.

(** X6. The queries sent for an address are consecutive windows from the
    cursor the loop started with: no block is skipped and none is asked
    for twice. *)
Theorem queries_are_consecutive_windows (mr : nat) (a : string) :
  ∀ fuel st acts r,
    while_true mr fuel a st = Some (acts, r) →
    ∃ n, queries acts = windows a (last_block st) (S n).
Proof.
  induction fuel as [|fuel IH]; intros st acts r Hw; [done|].
  pose proof (iteration_queries mr a st) as Hq.
  apply while_true_inv in Hw
    as [(acts0 & st1 & acts' & Hit & Hw & ->)|[(st' & Hit & _)|(e & Hit & _)]];
    rewrite Hit in Hq; simpl in Hq.
  - apply IH in Hw as [n Hn]. exists (S n).
    apply iteration_continue in Hit as (Hlb & _).
    rewrite queries_app, Hq, Hn, Hlb, (windows_S a (last_block st)), query_eq.
    done.
  - exists 0%nat. by rewrite Hq, windows_S, query_eq.
  - exists 0%nat. by rewrite Hq, windows_S, query_eq.
Qed.

(** X8. Once the loop of the first address is left, the budget is used
    up for good: in a run that ends normally every later address gets
    one query, from the cursor the first address stopped at, and nothing
    of it is dispatched or saved, whatever the source returns. *)
Theorem only_first_address_is_processed (mr fuel : nat) (a : string)
    (rest : list string) (acts : list (action DataFrame)) (st' : loop_state) :
  PROTOCOL_ADDRESSES = a :: rest →
  run_with mr fuel = Some (acts, inr st') →
  ∃ first,
    while_true mr fuel a {| last_block := initial_last_block; retry := 0 |}
    = Some (first, inr st')
    ∧ acts = first ++ map (λ b, Fetch b (last_block st')
                                  (last_block st' + PAGINATION_SIZE)) rest.
Proof.
  intros Haddrs. unfold run_with. rewrite Haddrs. cbn [for_addresses].
  destruct (while_true mr fuel a _) as [[first [e|st1]]|] eqn:Hw; [done| |done].
  pose proof (while_true_retry _ _ _ _ _ _ Hw) as [Hend _].
  destruct (for_addresses mr fuel rest st1) as [[acts' r']|] eqn:Hf; [|done].
  intros [= <- ->].
  destruct (for_addresses_exhausted_inv _ _ _ _ _ _ Hend Hf) as [-> ->].
  by exists first.
Qed.

(** X7. A run that ends normally has sent one query per frame saved,
    one per unit of the retry budget, one on which the first address
    was left and one for each later address; its cursor ends as many
    windows after the starting block as frames were saved and empty
    pages were retried, and [retry] ends at [max_retries]. *)
Theorem queries_of_a_complete_run (mr fuel : nat) (a : string)
    (rest : list string) (acts : list (action DataFrame)) (st' : loop_state) :
  PROTOCOL_ADDRESSES = a :: rest →
  run_with mr fuel = Some (acts, inr st') →
  length (queries acts) = (length (saved acts) + mr + 1 + length rest)%nat
  ∧ last_block st'
    = (initial_last_block
       + Z.of_nat (length (saved acts) + mr) * PAGINATION_SIZE)%Z
  ∧ retry st' = mr.
Proof.
  intros Haddrs. unfold run_with. rewrite Haddrs. cbn [for_addresses].
  destruct (while_true mr fuel a _) as [[first [e|st1]]|] eqn:Hw; [done| |done].
  pose proof (while_true_retry _ _ _ _ _ _ Hw) as [Hend _].
  pose proof (while_true_account _ _ _ _ _ _ Hw) as [Hcount Hcursor].
  simpl in Hcount, Hcursor. rewrite Nat.sub_0_r in Hcount, Hcursor.
  destruct (for_addresses mr fuel rest st1) as [[acts' r']|] eqn:Hf; [|done].
  intros [= <- ->].
  destruct (for_addresses_exhausted_inv _ _ _ _ _ _ Hend Hf) as [-> ->].
  rewrite queries_app, saved_app, queries_of_queries, saved_of_queries.
  rewrite app_nil_r, length_app, length_map. split; [lia|]. done.
Qed.

Lemma iteration_saved (mr : nat) (a : string) (st : loop_state) (df : DataFrame) :
  Save df ∈ (iteration mr a st).1 →
  ∃ data, fetched_page a st = inr data ∧ data ≠ []
          ∧ (process_data data).2 = inr df.
Proof.
  assert (∀ data calls df',
            fetched_page a st = inr data → data ≠ [] →
            process_data data = (calls, inr df') →
            Save df ∈ query a st :: dispatches calls ++ [Save df'] →
            ∃ data, fetched_page a st = inr data ∧ data ≠ []
                    ∧ (process_data data).2 = inr df) as Hsaved.
  { intros data calls df' Hd Hne Hpd Hin. rewrite app_comm_cons in Hin.
    apply elem_of_app in Hin as [Hin|Hin]; [by apply no_save_in_head in Hin|].
    apply list_elem_of_singleton in Hin as [= ->].
    exists data. by rewrite Hpd. }
  destruct (iteration_shape mr a st)
    as [(e & Hs & _)|[(Hs & _)|[(data & Hs & _)|[(data & calls & e & Hs & _)
       |[(data & calls & df' & e & Hs & Hd & Hne & Hpd & _)
        |(data & calls & df' & Hs & Hd & Hne & Hpd & _)]]]]];
    rewrite Hs; simpl; intros Hin;
    try (by apply (no_save_in_head a st []) in Hin);
    try (by apply no_save_in_head in Hin);
    by eapply Hsaved.
Qed.

Lemma while_true_saved (mr : nat) (a : string) (df : DataFrame) :
  ∀ fuel st acts r,
    while_true mr fuel a st = Some (acts, r) →
    Save df ∈ acts →
    ∃ lo data,
      Fetch a lo (lo + PAGINATION_SIZE) ∈ acts
      ∧ api_get_data a lo (lo + PAGINATION_SIZE) = inr data
      ∧ data ≠ []
      ∧ (process_data data).2 = inr df.
Proof.
  induction fuel as [|fuel IH]; intros st acts r Hw Hin; [done|].
  destruct (iteration_actions mr a st) as (tl & Hacts & _).
  assert (Save df ∈ (iteration mr a st).1 →
          ∃ lo data,
            Fetch a lo (lo + PAGINATION_SIZE) ∈ (iteration mr a st).1
            ∧ api_get_data a lo (lo + PAGINATION_SIZE) = inr data
            ∧ data ≠ []
            ∧ (process_data data).2 = inr df) as Hhere.
  { intros (data & Hd & Hne & Hpd)%iteration_saved.
    exists (last_block st), data.
    split; [|done]. rewrite Hacts, query_eq. left. }
  apply while_true_inv in Hw
    as [(acts0 & st1 & acts' & Hit & Hw & ->)|[(st' & Hit & _)|(e & Hit & _)]];
    rewrite Hit in Hhere; simpl in Hhere.
  - apply elem_of_app in Hin as [Hin|Hin].
    + destruct (Hhere Hin) as (lo & data & ? & ?). exists lo, data.
      split; [|done]. apply elem_of_app. by left.
    + destruct (IH _ _ _ Hw Hin) as (lo & data & ? & ?). exists lo, data.
      split; [|done]. apply elem_of_app. by right.
  - by apply Hhere.
  - by apply Hhere.
Qed.

(** X9. Every frame [run] gives to [save_data] is the snapshot of a
    page it fetched, and that page was not empty. *)
Theorem saved_frames_come_from_fetched_pages (mr fuel : nat)
    (acts : list (action DataFrame)) (r : exception + loop_state)
    (df : DataFrame) :
  run_with mr fuel = Some (acts, r) →
  Save df ∈ acts →
  ∃ a lo data,
    Fetch a lo (lo + PAGINATION_SIZE) ∈ acts
    ∧ api_get_data a lo (lo + PAGINATION_SIZE) = inr data
    ∧ data ≠ []
    ∧ (process_data data).2 = inr df.
Proof.
  unfold run_with. generalize {| last_block := initial_last_block; retry := 0 |}.
  revert acts r.
  induction PROTOCOL_ADDRESSES as [|a rest IH]; intros acts r st; simpl.
  - intros [= <- <-] Hin. by apply elem_of_nil in Hin.
  - destruct (while_true mr fuel a st) as [[acts0 [e|st']]|] eqn:Hw; [| |done].
    + intros [= <- <-] Hin.
      destruct (while_true_saved _ _ _ _ _ _ _ Hw Hin) as (lo & data & ?).
      by exists a, lo, data.
    + destruct (for_addresses mr fuel rest st') as [[acts' r']|] eqn:Hf; [|done].
      intros [= <- <-] Hin. apply elem_of_app in Hin as [Hin|Hin].
      * destruct (while_true_saved _ _ _ _ _ _ _ Hw Hin) as (lo & data & ? & ?).
        exists a, lo, data. split; [|done]. apply elem_of_app. by left.
      * destruct (IH _ _ _ Hf Hin) as (b & lo & data & ? & ?).
        exists b, lo, data. split; [|done]. apply elem_of_app. by right.
Qed.

End RunProperties.

(** * How [run] fails and when it ends *)

Section RunOutcomes.
Context `{LoanStateBase} `{Environment DataFrame}.

(** The three places an exception can come from, with the end of the
    trace each one leaves. *)
Lemma iteration_raised (mr : nat) (a : string) (st : loop_state)
    (acts : list (action DataFrame)) (e : exception) :
  (retry st ≤ mr)%nat →
  iteration mr a st = (acts, Raise e) →
  (acts = [query a st] ∧ fetched_page a st = inl e)
  ∨ (∃ data calls,
       acts = query a st :: dispatches calls
       ∧ fetched_page a st = inr data ∧ data ≠ []
       ∧ process_data data = (calls, inl e))
  ∨ (∃ data calls df,
       acts = query a st :: dispatches calls ++ [Save df]
       ∧ fetched_page a st = inr data ∧ data ≠ []
       ∧ process_data data = (calls, inr df)
       ∧ save_data (last_block st) df = Some e).
Proof.
  intros Hr Hit.
  destruct (iteration_shape mr a st)
    as [(e0 & Hs & Hd)|[(Hs & _)|[(data & Hs & _)|[(data & calls & e0 & Hs & Hd & Hpd & Hne)
       |[(data & calls & df & e0 & Hs & Hd & Hne & Hpd & Hsave)
        |(data & calls & df & Hs & _)]]]]];
    rewrite Hs in Hit; inversion Hit; subst.
  - by left.
  - right; left. exists data, calls. split; [done|]. split; [done|].
    split; [|done]. destruct Hne as [Hne|Hover]; [done|lia].
  - right; right. by exists data, calls, df.
Qed.

Lemma while_true_raised (mr : nat) (a : string) (e : exception) :
  ∀ fuel st acts,
    (retry st ≤ mr)%nat →
    while_true mr fuel a st = Some (acts, inl e) →
    ∃ pre lo,
      (acts = pre ++ [Fetch a lo (lo + PAGINATION_SIZE)]
       ∧ api_get_data a lo (lo + PAGINATION_SIZE) = inl e)
      ∨ (∃ data calls,
           acts = pre ++ Fetch a lo (lo + PAGINATION_SIZE) :: dispatches calls
           ∧ api_get_data a lo (lo + PAGINATION_SIZE) = inr data ∧ data ≠ []
           ∧ process_data data = (calls, inl e))
      ∨ (∃ data calls df,
           acts = pre ++ Fetch a lo (lo + PAGINATION_SIZE)
                           :: dispatches calls ++ [Save df]
           ∧ api_get_data a lo (lo + PAGINATION_SIZE) = inr data ∧ data ≠ []
           ∧ process_data data = (calls, inr df)
           ∧ save_data lo df = Some e).
Proof.
  induction fuel as [|fuel IH]; intros st acts Hr Hw; [done|].
  apply while_true_inv in Hw
    as [(acts0 & st1 & acts' & Hit & Hw & ->)|[(st' & _ & ?)|(e' & Hit & [= <-])]];
    [| done |].
  - apply iteration_account in Hit as (_ & _ & Hr1).
    destruct (IH _ _ (Hr1 Hr) Hw)
      as (pre & lo & [[-> ?]|[(data & calls & -> & ?)|(data & calls & df & -> & ?)]]);
      exists (acts0 ++ pre), lo.
    + left. by rewrite <- app_assoc.
    + right; left. exists data, calls. by rewrite <- app_assoc.
    + right; right. exists data, calls, df. by rewrite <- app_assoc.
  - exists [], (last_block st).
    destruct (iteration_raised _ _ _ _ _ Hr Hit)
      as [[-> ?]|[(data & calls & -> & ?)|(data & calls & df & -> & ?)]].
    + by left.
    + right; left. by exists data, calls.
    + right; right. by exists data, calls, df.
Qed.

(** X10. When [run] raises, the exception comes from the last thing it
    did: the last query raised; or [process_data] raised on the last
    page fetched, which was not empty, after the calls that end the
    trace and with nothing saved for that page; or [save_data] raised on
    the frame of that page, the last action of the run. *)
Theorem run_raises_at_its_last_action (mr fuel : nat)
    (acts : list (action DataFrame)) (e : exception) :
  run_with mr fuel = Some (acts, inl e) →
  ∃ pre a lo,
    (acts = pre ++ [Fetch a lo (lo + PAGINATION_SIZE)]
     ∧ api_get_data a lo (lo + PAGINATION_SIZE) = inl e)
    ∨ (∃ data calls,
         acts = pre ++ Fetch a lo (lo + PAGINATION_SIZE) :: dispatches calls
         ∧ api_get_data a lo (lo + PAGINATION_SIZE) = inr data ∧ data ≠ []
         ∧ process_data data = (calls, inl e))
    ∨ (∃ data calls df,
         acts = pre ++ Fetch a lo (lo + PAGINATION_SIZE)
                         :: dispatches calls ++ [Save df]
         ∧ api_get_data a lo (lo + PAGINATION_SIZE) = inr data ∧ data ≠ []
         ∧ process_data data = (calls, inr df)
         ∧ save_data lo df = Some e).
Proof.
  unfold run_with.
  assert (retry {| last_block := initial_last_block; retry := 0 |} ≤ mr)%nat
    as Hr by (simpl; lia).
  revert Hr. generalize {| last_block := initial_last_block; retry := 0 |}.
  revert acts.
  induction PROTOCOL_ADDRESSES as [|a rest IH]; intros acts st Hr; simpl; [done|].
  destruct (while_true mr fuel a st) as [[acts0 [e0|st']]|] eqn:Hw; [| |done].
  - intros [= <- <-].
    destruct (while_true_raised _ _ _ _ _ _ Hr Hw) as (pre & lo & Hcases).
    by exists pre, a, lo.
  - destruct (for_addresses mr fuel rest st') as [[acts' r']|] eqn:Hf; [|done].
    intros [= <- ->].
    pose proof (while_true_retry _ _ _ _ _ _ Hw) as [Hend _].
    assert (retry st' ≤ mr)%nat as Hr' by lia.
    destruct (IH _ _ Hr' Hf)
      as (pre & b & lo & [[-> ?]|[(data & calls & -> & ?)|(data & calls & df & -> & ?)]]);
      exists (acts0 ++ pre), b, lo.
    + left. by rewrite <- app_assoc.
    + right; left. exists data, calls. by rewrite <- app_assoc.
    + right; right. exists data, calls, df. by rewrite <- app_assoc.
Qed.

(** X11. As long as every query is answered with a non-empty page that
    is processed and saved without an exception, the loop of an address
    does not end: [retry] stays where it is and no bound on the number
    of passes is enough. *)
Theorem loop_goes_on_while_pages_are_full (mr : nat) (a : string) :
  (∀ lo hi, ∃ data df,
     api_get_data a lo hi = inr data ∧ data ≠ []
     ∧ (process_data data).2 = inr df
     ∧ save_data lo df = None) →
  ∀ fuel st, retry st ≠ mr → while_true mr fuel a st = None.
Proof.
  intros Hfull. induction fuel as [|fuel IH]; intros st Hr; [done|].
  rewrite while_true_unfold.
  destruct (Hfull (last_block st) (last_block st + PAGINATION_SIZE)%Z)
    as (data & df & Hd & Hne & Hdf & Hsave).
  rewrite (iteration_process _ _ _ data); [|done|by left|done].
  destruct (process_data data) as [calls r]; simpl in Hdf; subst r.
  rewrite Hsave. by rewrite IH.
Qed.

(** X12. If the source has nothing from the cursor on, the loop of an
    address is left after as many empty windows as the budget still
    allows, plus one: [max_retries - retry + 1] queries in all. *)
Theorem loop_ends_when_source_goes_quiet (mr : nat) (a : string) (k : nat) :
  (0 ≤ PAGINATION_SIZE)%Z →
  ∀ fuel st,
    (∀ lo hi, (last_block st ≤ lo)%Z → api_get_data a lo hi = inr []) →
    (retry st + k = mr)%nat →
    (k < fuel)%nat →
    while_true mr fuel a st
    = Some (windows a (last_block st) (S k),
            inr {| last_block := last_block st + Z.of_nat k * PAGINATION_SIZE;
                   retry := mr |}).
Proof.
  intros Hpos fuel st Hquiet Hr Hfuel.
  apply while_true_silent; [|done|done].
  intros i _. apply Hquiet. nia.
Qed.

End RunOutcomes.

(** * The loop on concrete sources *)

Section Examples.
Import SpecLedger.
#[local] Existing Instance ledger.

(** The specification's scenario of one page with a deposit of 100
    followed by a withdrawal of 40. *)
Example deposit_then_withdraw :
  collateral_shown (Some (process_data [deposit_100; withdraw_40]).2) "alice" "X"
  = Some 60%Z.
Proof. vm_compute. reflexivity. Qed.

(** The rows handed to [process_event] are rows of the frame: with a
    record that lacks the amount in the same page, the amount of the
    deposit is the nearest float. *)
Example row_depends_on_the_page :
  collateral_shown (Some (process_data [big_deposit]).2) "alice" "X"
  = Some 9007199254740993%Z
  ∧ collateral_shown
      (Some (process_data [big_deposit; transfer_no_amount]).2) "alice" "X"
    = Some 9007199254740992%Z.
Proof. split; vm_compute; reflexivity. Qed.

(** C1, counterexample. Window 1000, [max_retries = 2], starting
    block 0, a source that is always empty: three queries are sent for
    the address, the third one for the blocks from 2000 to 3000.  With
    the constant of [run], [max_retries = 5], six are sent. *)
Lemma silent_source_one_more_fetch :
  let trace := [Fetch "A" 0 1000; Fetch "A" 1000 2000; Fetch "A" 2000 3000] in
  @run_with ledger (silent ["A"] 1000 0) 2 10
  = Some (trace, inr {| last_block := 2000; retry := 2 |})
  ∧ length (@fetches_for ledger "A" trace) ≠ 2
  ∧ Fetch "A" 2000 3000 ∈ trace
  ∧ (length ∘ @fetches_for ledger "A" ∘ fst <$> @run ledger (silent ["A"] 1000 0) 10)
    = Some 6.
Proof.
  split; [vm_compute; reflexivity|]. split; [vm_compute; lia|].
  split; [|vm_compute; reflexivity].
  do 2 apply list_elem_of_further. apply list_elem_of_here.
Qed.

(** C2, counterexample. The source is empty up to block 5000 and has a
    page with a deposit from there: [run] fetches that page with the
    budget used up and leaves the loop without a call of
    [process_event] and without a frame saved. *)
Lemma late_page_is_dropped :
  let env := single_page ["A"] 1000 0 5000 [deposit_100] in
  let trace := [Fetch "A" 0 1000; Fetch "A" 1000 2000; Fetch "A" 2000 3000;
                Fetch "A" 3000 4000; Fetch "A" 4000 5000; Fetch "A" 5000 6000] in
  @api_get_data _ env "A" 5000 6000 = inr [deposit_100]
  ∧ @run ledger env 10 = Some (trace, inr {| last_block := 5000; retry := 5 |})
  ∧ @saved ledger trace = []
  ∧ Forall (λ act, @is_fetch ledger act = true) trace.
Proof.
  split; [reflexivity|]. split; [vm_compute; reflexivity|].
  split; [reflexivity|]. by repeat constructor.
Qed.

(** C3, counterexample. One stream of two deposits of one account, at
    blocks 1200 and 1700, read from block 1000.  With a window of 1000
    the stream comes as one page and the final snapshot shows 150; with
    a window of 500 it comes as two pages and the final snapshot
    shows 50. *)
Lemma split_changes_final_snapshot :
  let events := [early_deposit; later_deposit] in
  let wide := stream events ["A"] 1000 1000 in
  let narrow := stream events ["A"] 500 1000 in
  @api_get_data _ wide "A" 1000 2000 = inr [early_deposit; later_deposit]
  ∧ @api_get_data _ narrow "A" 1000 1500 = inr [early_deposit]
  ∧ @api_get_data _ narrow "A" 1500 2000 = inr [later_deposit]
  ∧ collateral_shown (inr <$> last_saved (@run ledger wide 10)) "alice" "X"
    = Some 150%Z
  ∧ collateral_shown (inr <$> last_saved (@run ledger narrow 10)) "alice" "X"
    = Some 50%Z
  ∧ last_saved (@run ledger wide 10) ≠ last_saved (@run ledger narrow 10).
Proof.
  split; [reflexivity|]. split; [reflexivity|]. split; [reflexivity|].
  split; [vm_compute; reflexivity|]. split; [vm_compute; reflexivity|].
  intros Heq.
  apply (f_equal (λ r, collateral_shown (inr <$> r) "alice" "X")) in Heq.
  vm_compute in Heq. discriminate.
Qed.

(** C4, counterexample. The page fetched from block 1000 is not empty
    and comes after one empty page: once it is processed [retry] is
    still 1; the run then leaves address ["A"] with [retry = 5] and
    address ["B"] gets a single query. *)
Lemma retry_survives_a_full_page :
  let env := single_page ["A"; "B"] 1000 0 1000 [early_deposit] in
  (@iteration ledger env 5 "A" {| last_block := 0; retry := 0 |}).2
  = Continue {| last_block := 1000; retry := 1 |}
  ∧ @fetched_page ledger env "A" {| last_block := 1000; retry := 1 |}
    = inr [early_deposit]
  ∧ (@iteration ledger env 5 "A" {| last_block := 1000; retry := 1 |}).2
    = Continue {| last_block := 2000; retry := 1 |}
  ∧ (snd <$> @while_true ledger env 5 10 "A" {| last_block := 0; retry := 0 |})
    = Some (inr {| last_block := 6000; retry := 5 |})
  ∧ (@fetches_for ledger "B" ∘ fst <$> @run ledger env 10)
    = Some [Fetch "B" 6000 7000].
Proof. repeat split; vm_compute; reflexivity. Qed.

(** C5, counterexample. Two addresses, starting block 0, a source
    that is always empty: the first query for ["B"] starts at block
    5000, where ["A"] stopped, not at the starting block. *)
Lemma second_address_starts_where_first_stopped :
  let env := silent ["A"; "B"] 1000 0 in
  @initial_last_block _ env = 0%Z
  ∧ @run ledger env 10
    = Some ([Fetch "A" 0 1000; Fetch "A" 1000 2000; Fetch "A" 2000 3000;
             Fetch "A" 3000 4000; Fetch "A" 4000 5000; Fetch "A" 5000 6000;
             Fetch "B" 5000 6000],
            inr {| last_block := 5000; retry := 5 |}).
Proof. split; vm_compute; reflexivity. Qed.

(** C10, counterexample. The second record has no [key_name] field;
    [process_data] raises nothing, dispatches the first record and
    returns a frame. *)
Lemma missing_key_name_is_tolerated :
  let data := [deposit_100; untagged "bob" "X" 1 2] in
  data ≠ []
  ∧ untagged "bob" "X" 1 2 !! "key_name" = None
  ∧ (process_data data).1 = [("deposit", frame_row data deposit_100)]
  ∧ collateral_shown (Some (process_data data).2) "alice" "X" = Some 100%Z.
Proof. repeat split; try done; vm_compute; reflexivity. Qed.

End Examples.

(** ** The theorems at work on these sources *)

Section Witnesses.
Import SpecLedger.
#[local] Existing Instance ledger.

Lemma retry_bound_on_silent_source_witness :
  let env := silent ["A"; "B"] 1000 0 in
  (∀ addr lo hi, @api_get_data _ env addr lo hi = inr [])
  ∧ @PROTOCOL_ADDRESSES _ env = ["A"; "B"]
  ∧ (2 < 3)%nat
  ∧ @run_with ledger env 2 3
    = Some ([Fetch "A" 0 1000; Fetch "A" 1000 2000; Fetch "A" 2000 3000;
             Fetch "B" 2000 3000],
            inr {| last_block := 2000; retry := 2 |}).
Proof.
  intros env.
  assert (∀ addr lo hi, @api_get_data _ env addr lo hi = inr []) as Hsilent
    by done.
  assert (2 < 3)%nat as Hfuel by lia.
  split; [exact Hsilent|]. split; [reflexivity|]. split; [exact Hfuel|].
  exact (proj1 (@retry_bound_on_silent_source ledger env 2 3 "A" ["B"]
                  Hsilent eq_refl Hfuel)).
Defined.

Lemma non_empty_page_is_processed_witness :
  let env := single_page ["A"; "B"] 1000 0 1000 [early_deposit] in
  let st := {| last_block := 1000; retry := 1 |} in
  @fetched_page ledger env "A" st = inr [early_deposit]
  ∧ [early_deposit] ≠ []
  ∧ retry st ≠ 5
  ∧ ∃ calls df,
      process_data [early_deposit] = (calls, inr df)
      ∧ calls = expected_calls [early_deposit] [early_deposit]
      ∧ @iteration ledger env 5 "A" st
        = (Fetch "A" 1000 2000 :: dispatches calls ++ [Save df],
           Continue {| last_block := 2000; retry := 1 |}).
Proof.
  intros env st.
  assert (@fetched_page ledger env "A" st = inr [early_deposit]) as Hpage
    by reflexivity.
  assert ([early_deposit] ≠ []) as Hne by discriminate.
  assert (retry st ≠ 5) as Hretry by (simpl; lia).
  assert (∃ df, (process_data [early_deposit]).2 = inr df) as [df Hdf]
    by (eexists; vm_compute; reflexivity).
  assert (∃ calls, process_data [early_deposit] = (calls, inr df))
    as [calls Hpd].
  { destruct (process_data [early_deposit]) as [calls res]. simpl in Hdf.
    subst res. by exists calls. }
  split; [exact Hpage|]. split; [exact Hne|]. split; [exact Hretry|].
  exists calls, df. split; [exact Hpd|].
  pose proof (@non_empty_page_is_processed ledger env 5 "A" st [early_deposit]
                Hpage Hne Hretry) as (_ & _ & Hok).
  destruct (Hok calls df Hpd) as (Hcalls & _ & Hit).
  split; [exact Hcalls|exact Hit].
Defined.

Lemma saved_frame_is_of_its_own_page_witness :
  let env := stream [early_deposit; later_deposit] ["A"] 500 1000 in
  ∃ pre df post r,
    @run_with ledger env 5 10 = Some (pre ++ Save df :: post, r)
    ∧ ∃ pre' a lo data led,
        pre = pre' ++ Fetch a lo (lo + @PAGINATION_SIZE _ env)
                       :: dispatches (expected_calls data data)
        ∧ @api_get_data _ env a lo (lo + @PAGINATION_SIZE _ env) = inr data
        ∧ data ≠ []
        ∧ apply_in_order NostraAlphaState (expected_calls data data) = inr led
        ∧ df = get_result_df (loan_entities led).
Proof.
  intros env.
  assert (∃ df post r,
            @run_with ledger env 5 10
            = Some ((Fetch "A" 1000 1500
                       :: dispatches (expected_calls [early_deposit] [early_deposit]))
                      ++ Save df :: post, r))
    as (df & post & r & Hrun) by (eexists _, _, _; vm_compute; reflexivity).
  eexists _, df, post, r. split; [exact Hrun|].
  exact (@saved_frame_is_of_its_own_page ledger env 5 10 _ r _ post df
           Hrun eq_refl).
Defined.

Lemma retry_is_never_reset_witness :
  let env := single_page ["A"; "B"] 1000 0 1000 [early_deposit] in
  let st := {| last_block := 1000; retry := 1 |} in
  let st' := {| last_block := 2000; retry := 1 |} in
  @fetched_page ledger env "A" st = inr [early_deposit]
  ∧ (@iteration ledger env 5 "A" st).2 = Continue st'
  ∧ retry st' = retry st.
Proof.
  intros env st st'.
  assert (@fetched_page ledger env "A" st = inr [early_deposit]) as Hpage
    by reflexivity.
  assert (@iteration ledger env 5 "A" st
          = ((@iteration ledger env 5 "A" st).1, Continue st')) as Hit
    by (vm_compute; reflexivity).
  split; [exact Hpage|]. split; [by rewrite Hit|].
  pose proof (@retry_is_never_reset ledger env 5) as (_ & Hpass & _).
  refine (proj1 (Hpass "A" st _ st' Hit) [early_deposit] Hpage _).
  discriminate.
Defined.

Lemma cursor_carries_over_witness :
  let env := silent ["A"; "B"] 1000 0 in
  let st := {| last_block := 0; retry := 0 |} in
  let st' := {| last_block := 5000; retry := 5 |} in
  let trace := @windows ledger env "A" 0 6 ++ [Fetch "B" 5000 6000] in
  @while_true ledger env 5 10 "A" st = Some (@windows ledger env "A" 0 6, inr st')
  ∧ @for_addresses ledger env 5 10 ["A"; "B"] st = Some (trace, inr st')
  ∧ ∃ tail, trace = @windows ledger env "A" 0 6 ++ Fetch "B" 5000 6000 :: tail.
Proof.
  intros env st st' trace.
  assert (@while_true ledger env 5 10 "A" st
          = Some (@windows ledger env "A" 0 6, inr st')) as Hfirst
    by (vm_compute; reflexivity).
  assert (@for_addresses ledger env 5 10 ["A"; "B"] st = Some (trace, inr st'))
    as Hboth by (vm_compute; reflexivity).
  split; [exact Hfirst|]. split; [exact Hboth|].
  exact (@cursor_carries_over ledger env 5 10 "A" "B" [] st st' _ _ _
           Hfirst Hboth).
Defined.

Lemma unknown_tag_is_skipped_witness :
  let page := [deposit_100; transfer; withdraw_40] in
  transfer !! "key_name" = Some (VStr "Transfer")
  ∧ EVENTS_METHODS_MAPPING !! "Transfer" = None
  ∧ process_data [transfer] = ([], inr [])
  ∧ process_data page
    = ((replay page NostraAlphaState [deposit_100; withdraw_40]).1,
       result_df (replay page NostraAlphaState [deposit_100; withdraw_40]).2)
  ∧ (∀ m r', (m, r') ∈ (process_data page).1 →
       r' !! "key_name" ≠ Some (CStr "Transfer")).
Proof.
  intros page.
  assert (transfer !! "key_name" = Some (VStr "Transfer")) as Hkey
    by (vm_compute; reflexivity).
  assert (EVENTS_METHODS_MAPPING !! "Transfer" = None) as Habsent
    by (vm_compute; reflexivity).
  pose proof (@unknown_tag_is_skipped ledger (silent [] 1000 0)
                transfer "Transfer" Hkey Habsent)
    as (_ & Hskip & Hnever & Hone & _).
  split; [exact Hkey|]. split; [exact Habsent|]. split; [exact Hone|].
  split; [exact (Hskip [deposit_100] [withdraw_40])|exact (Hnever page)].
Defined.

Lemma dispatch_in_page_order_witness :
  let data := [deposit_100; transfer; withdraw_40] in
  (∃ df, (process_data data).2 = inr df)
  ∧ (process_data data).1 = expected_calls data data
  ∧ (process_data data).2
    = result_df (apply_in_order NostraAlphaState (expected_calls data data))
  ∧ collateral_shown (Some (process_data data).2) "alice" "X" = Some 60%Z.
Proof.
  intros data.
  assert (∃ df, (process_data data).2 = inr df) as [df Hok]
    by (eexists; vm_compute; reflexivity).
  pose proof (@dispatch_in_page_order ledger data) as (_ & _ & _ & Hstate & Hall).
  split; [by exists df|]. split; [exact (Hall df Hok)|].
  split; [exact Hstate|vm_compute; reflexivity].
Defined.

Lemma fetch_covers_one_window_witness :
  let env := silent ["A"; "B"] 1000 0 in
  let trace := @windows ledger env "A" 0 6 ++ [Fetch "B" 5000 6000] in
  @run ledger env 10 = Some (trace, inr {| last_block := 5000; retry := 5 |})
  ∧ Fetch "B" 5000 6000 ∈ trace
  ∧ 6000%Z = (5000 + @PAGINATION_SIZE _ env)%Z
  ∧ "B" ∈ @PROTOCOL_ADDRESSES _ env.
Proof.
  intros env trace.
  assert (@run_with ledger env 5 10
          = Some (trace, inr {| last_block := 5000; retry := 5 |})) as Hrun
    by (vm_compute; reflexivity).
  assert (Fetch "B" 5000 6000 ∈ trace) as Hin.
  { apply elem_of_app. right. apply list_elem_of_here. }
  split; [exact Hrun|]. split; [exact Hin|].
  pose proof (@fetch_covers_one_window ledger env 5) as [_ Hall].
  exact (Hall 10 _ _ Hrun "B" 5000%Z 6000%Z Hin).
Defined.

Lemma cursor_advances_by_window_witness :
  let env := single_page ["A"; "B"] 1000 0 1000 [early_deposit] in
  let st := {| last_block := 1000; retry := 1 |} in
  let st' := {| last_block := 2000; retry := 1 |} in
  (0 < @PAGINATION_SIZE _ env)%Z
  ∧ (@iteration ledger env 5 "A" st).2 = Continue st'
  ∧ last_block st' = (last_block st + @PAGINATION_SIZE _ env)%Z
  ∧ (last_block st < last_block st')%Z.
Proof.
  intros env st st'.
  assert (0 < @PAGINATION_SIZE _ env)%Z as Hpos by (simpl; lia).
  split; [exact Hpos|]. split; [vm_compute; reflexivity|].
  apply (@cursor_advances_by_window ledger env 5 "A" st st'
           (@iteration ledger env 5 "A" st).1 Hpos).
  vm_compute; reflexivity.
Defined.

Lemma key_name_column_witness :
  let data := [untagged "bob" "X" 1 2] in
  (∀ r, r ∈ data → r !! "key_name" = None)
  ∧ process_data data = ([], inl (KeyError "key_name")).
Proof.
  intros data.
  assert (∀ r, r ∈ data → r !! "key_name" = None) as Hnone.
  { intros r Hin. apply list_elem_of_singleton in Hin as ->.
    vm_compute; reflexivity. }
  split; [exact Hnone|].
  exact (proj1 (@key_name_column ledger data) Hnone).
Defined.

End Witnesses.

(** ** The further properties on concrete pages and sources *)

Section MoreWitnesses.
Import SpecLedger.
#[local] Existing Instance ledger.

Lemma page_without_registered_records_witness :
  let data := [transfer; untagged "bob" "X" 1 2] in
  has_column "key_name" data = true
  ∧ (∀ r, r ∈ data → registered r = false)
  ∧ process_data data = ([], inr []).
Proof.
  intros data.
  assert (has_column "key_name" data = true) as Hcol by (vm_compute; reflexivity).
  assert (∀ r, r ∈ data → registered r = false) as Hnone.
  { intros r Hin. apply elem_of_cons in Hin as [->|Hin].
    - vm_compute; reflexivity.
    - apply list_elem_of_singleton in Hin as ->. vm_compute; reflexivity. }
  split; [exact Hcol|]. split; [exact Hnone|].
  exact (@page_without_registered_records ledger data Hcol Hnone).
Defined.

Lemma calls_follow_the_mapping_witness :
  let data := [transfer; withdraw_40] in
  let r' := frame_row data withdraw_40 in
  ("withdraw", r') ∈ (process_data data).1
  ∧ ∃ r, r ∈ data
         ∧ r' = frame_row data r
         ∧ ∃ k, r !! "key_name" = Some (VStr k)
                ∧ r' !! "key_name" = Some (CStr k)
                ∧ EVENTS_METHODS_MAPPING !! k = Some "withdraw".
Proof.
  intros data r'.
  assert (("withdraw", r') ∈ (process_data data).1) as Hin.
  { assert ((process_data data).1 = [("withdraw", r')]) as ->
      by (vm_compute; reflexivity).
    left. }
  split; [exact Hin|].
  exact (@calls_follow_the_mapping ledger data "withdraw" r' Hin).
Defined.

Lemma first_failure_ends_the_page_witness :
  let data := [deposit_100] ++ malformed_deposit :: [withdraw_40] in
  let st := set_collateral ∅ "alice" "X" (λ c, c + 100)%Z 5200 in
  let bad := frame_row data malformed_deposit in
  registered malformed_deposit = true
  ∧ (replay data NostraAlphaState [deposit_100]).2 = inr st
  ∧ process_event st (method_name_of bad) bad
    = inl (MalformedEventError "deposit")
  ∧ process_data data
    = (expected_calls data [deposit_100] ++ [(method_name_of bad, bad)],
       inl (MalformedEventError "deposit")).
Proof.
  intros data st bad.
  assert (registered malformed_deposit = true) as Hreg
    by (vm_compute; reflexivity).
  assert ((replay data NostraAlphaState [deposit_100]).2 = inr st) as Hpre
    by (vm_compute; reflexivity).
  assert (process_event st (method_name_of bad) bad
          = inl (MalformedEventError "deposit")) as Hfail
    by (vm_compute; reflexivity).
  split; [exact Hreg|]. split; [exact Hpre|]. split; [exact Hfail|].
  exact (@first_failure_ends_the_page ledger [deposit_100] [withdraw_40]
           malformed_deposit st _ Hreg Hpre Hfail).
Defined.

Lemma queries_are_consecutive_windows_witness :
  let env := single_page ["A"; "B"] 1000 0 1000 [early_deposit] in
  let st := {| last_block := 0; retry := 0 |} in
  ∃ acts,
    @while_true ledger env 5 10 "A" st
    = Some (acts, inr {| last_block := 6000; retry := 5 |})
    ∧ ∃ n, @queries ledger acts = @windows ledger env "A" 0 (S n).
Proof.
  intros env st.
  assert (∃ acts, @while_true ledger env 5 10 "A" st
                  = Some (acts, inr {| last_block := 6000; retry := 5 |}))
    as [acts Hw] by (eexists; vm_compute; reflexivity).
  exists acts. split; [exact Hw|].
  exact (@queries_are_consecutive_windows ledger env 5 "A" 10 st acts _ Hw).
Defined.

Lemma queries_of_a_complete_run_witness :
  let env := single_page ["A"; "B"] 1000 0 1000 [early_deposit] in
  let st' := {| last_block := 6000; retry := 5 |} in
  @PROTOCOL_ADDRESSES _ env = ["A"; "B"]
  ∧ ∃ acts,
      @run_with ledger env 5 10 = Some (acts, inr st')
      ∧ length (@queries ledger acts)
        = (length (@saved ledger acts) + 5 + 1 + length ["B"])%nat
      ∧ last_block st'
        = (@initial_last_block _ env
           + Z.of_nat (length (@saved ledger acts) + 5) * @PAGINATION_SIZE _ env)%Z
      ∧ retry st' = 5.
Proof.
  intros env st'. split; [reflexivity|].
  assert (∃ acts, @run_with ledger env 5 10 = Some (acts, inr st'))
    as [acts Hrun] by (eexists; vm_compute; reflexivity).
  exists acts. split; [exact Hrun|].
  exact (@queries_of_a_complete_run ledger env 5 10 "A" ["B"] acts st'
           eq_refl Hrun).
Defined.

Lemma only_first_address_is_processed_witness :
  let env := steady ["A"; "B"] 1000 0 [deposit_100] in
  let st0 := {| last_block := 0; retry := 0 |} in
  let st' := {| last_block := 0; retry := 0 |} in
  @PROTOCOL_ADDRESSES _ env = ["A"; "B"]
  ∧ @run_with ledger env 0 1
    = Some ([Fetch "A" 0 1000; Fetch "B" 0 1000], inr st')
  ∧ ∃ first,
      @while_true ledger env 0 1 "A" st0 = Some (first, inr st')
      ∧ [Fetch "A" 0 1000; Fetch "B" 0 1000]
        = first ++ map (λ b, Fetch b 0%Z 1000%Z) ["B"].
Proof.
  intros env st0 st'.
  assert (@run_with ledger env 0 1
          = Some ([Fetch "A" 0 1000; Fetch "B" 0 1000], inr st')) as Hrun
    by (vm_compute; reflexivity).
  split; [reflexivity|]. split; [exact Hrun|].
  exact (@only_first_address_is_processed ledger env 0 1 "A" ["B"] _ st'
           eq_refl Hrun).
Defined.

Lemma saved_frames_come_from_fetched_pages_witness :
  let env := single_page ["A"] 1000 0 1000 [early_deposit] in
  ∃ acts r df,
    @run_with ledger env 5 10 = Some (acts, r)
    ∧ Save df ∈ acts
    ∧ ∃ a lo data,
        Fetch a lo (lo + @PAGINATION_SIZE _ env) ∈ acts
        ∧ @api_get_data _ env a lo (lo + @PAGINATION_SIZE _ env) = inr data
        ∧ data ≠ []
        ∧ (process_data data).2 = inr df.
Proof.
  intros env.
  assert (∃ pre df post r,
            @run_with ledger env 5 10 = Some (pre ++ Save df :: post, r))
    as (pre & df & post & r & Hrun).
  { exists (Fetch "A" 0 1000 :: Fetch "A" 1000 2000
              :: dispatches (expected_calls [early_deposit] [early_deposit])).
    eexists _, _, _. vm_compute. reflexivity. }
  assert (Save df ∈ pre ++ Save df :: post) as Hin.
  { apply elem_of_app. right. left. }
  exists (pre ++ Save df :: post), r, df.
  split; [exact Hrun|]. split; [exact Hin|].
  exact (@saved_frames_come_from_fetched_pages ledger env 5 10 _ r df Hrun Hin).
Defined.

Lemma run_raises_at_its_last_action_witness :
  let env := refusing_sink ["A"] 1000 0 1000 [early_deposit] in
  ∃ acts,
    @run_with ledger env 5 10 = Some (acts, inl SinkWriteError)
    ∧ ∃ pre a lo,
        (acts = pre ++ [Fetch a lo (lo + @PAGINATION_SIZE _ env)]
         ∧ @api_get_data _ env a lo (lo + @PAGINATION_SIZE _ env)
           = inl SinkWriteError)
        ∨ (∃ data calls,
             acts = pre ++ Fetch a lo (lo + @PAGINATION_SIZE _ env)
                             :: dispatches calls
             ∧ @api_get_data _ env a lo (lo + @PAGINATION_SIZE _ env) = inr data
             ∧ data ≠ []
             ∧ process_data data = (calls, inl SinkWriteError))
        ∨ (∃ data calls df,
             acts = pre ++ Fetch a lo (lo + @PAGINATION_SIZE _ env)
                             :: dispatches calls ++ [Save df]
             ∧ @api_get_data _ env a lo (lo + @PAGINATION_SIZE _ env) = inr data
             ∧ data ≠ []
             ∧ process_data data = (calls, inr df)
             ∧ @save_data _ env lo df = Some SinkWriteError).
Proof.
  intros env.
  assert (∃ acts, @run_with ledger env 5 10 = Some (acts, inl SinkWriteError))
    as [acts Hrun] by (eexists; vm_compute; reflexivity).
  exists acts. split; [exact Hrun|].
  exact (@run_raises_at_its_last_action ledger env 5 10 acts _ Hrun).
Defined.

Lemma loop_goes_on_while_pages_are_full_witness :
  let env := steady ["A"] 1000 0 [deposit_100] in
  let st := {| last_block := 0; retry := 0 |} in
  (∀ lo hi, ∃ data df,
     @api_get_data _ env "A" lo hi = inr data ∧ data ≠ []
     ∧ (process_data data).2 = inr df
     ∧ @save_data _ env lo df = None)
  ∧ retry st ≠ 5
  ∧ ∀ fuel, @while_true ledger env 5 fuel "A" st = None.
Proof.
  intros env st.
  assert (∃ df, (process_data [deposit_100]).2 = inr df) as [df Hdf]
    by (eexists; vm_compute; reflexivity).
  assert (∀ lo hi : Z, ∃ data df,
            @api_get_data _ env "A" lo hi = inr data ∧ data ≠ []
            ∧ (process_data data).2 = inr df
            ∧ @save_data _ env lo df = None) as Hfull.
  { intros lo hi. exists [deposit_100], df. by repeat split. }
  assert (retry st ≠ 5) as Hr by (simpl; lia).
  split; [exact Hfull|]. split; [exact Hr|].
  intros fuel.
  exact (@loop_goes_on_while_pages_are_full ledger env 5 "A" Hfull fuel st Hr).
Defined.

Lemma loop_ends_when_source_goes_quiet_witness :
  let env := single_page ["A"] 1000 0 1000 [early_deposit] in
  let st := {| last_block := 2000; retry := 1 |} in
  (0 ≤ @PAGINATION_SIZE _ env)%Z
  ∧ (∀ lo hi, (last_block st ≤ lo)%Z → @api_get_data _ env "A" lo hi = inr [])
  ∧ @while_true ledger env 5 5 "A" st
    = Some (@windows ledger env "A" 2000 5,
            inr {| last_block := 2000 + Z.of_nat 4 * @PAGINATION_SIZE _ env;
                   retry := 5 |}).
Proof.
  intros env st.
  assert (0 ≤ @PAGINATION_SIZE _ env)%Z as Hpos by (simpl; lia).
  assert (∀ lo hi, (last_block st ≤ lo)%Z
                   → @api_get_data _ env "A" lo hi = inr []) as Hquiet.
  { intros lo hi Hlo. simpl in *. destruct (decide (lo = 1000%Z)); [lia|done]. }
  split; [exact Hpos|]. split; [exact Hquiet|].
  apply (@loop_ends_when_source_goes_quiet ledger env 5 "A" 4 Hpos 5 st Hquiet);
    simpl; lia.
Defined.

End MoreWitnesses.
